(** * Verification of the helper module of the fpp3 read-along

    The read-along keeps its shared helpers in [utils.py], listed in the
    preface notebook.  This development embeds the helpers that carry
    behaviour of their own -- the accuracy metrics [RMSE], [MAE], [MAPE],
    [MASE], the residual computation of [plot_tsresiduals], [compute] and
    [extend_timeseries] -- and proves properties of them.

    Modelling conventions.

    - A float64 is a value of [num]: a real number, one of the two
      infinities, or NaN.  Arithmetic on finite values is exact; the special
      values follow the IEEE 754 rules numpy follows (NaN is absorbing,
      [inf - inf] and [0 / 0] are NaN, a nonzero number over zero is an
      infinity).  Rounding, overflow, underflow and the sign of zero are not
      part of the model.  The statements made of the metrics are therefore
      statements on NaN, on infinities, on signs, on exceptions and on the
      formula that is computed; two rounded results are not compared.
    - A numeric sequence is a one-dimensional numpy array, a [list num];
      element-wise operations broadcast an array of length one and raise
      otherwise when the lengths differ.  (A pandas Series, which is
      subtracted label by label and whose mean leaves NaN out, is not
      modelled: the statements on the metrics are about arrays.)
    - A Python exception is a value [Raise e] of the [result] type.
    - A timestamp is its nanosecond count, an integer; NaT is a constructor
      of its own.  pandas holds the count in 64 bits: where a helper
      computes a time stamp, the result and the distance moved are checked
      against that range, and the computation raises when they do not
      fit. *)

From Stdlib Require Import String Reals.Reals Reals.ROrderedType Lra Lia ZArith List Bool.
Import ListNotations.

(** ** Exceptions *)

Inductive exn : Type :=
| ValueError
| TypeError
| IndexError
| KeyError
| OutOfBoundsDatetime.

Inductive result (A : Type) : Type :=
| Ok (a : A)
| Raise (e : exn).

Arguments Ok {A} a.
Arguments Raise {A} e.

Definition bind {A B : Type} (m : result A) (k : A -> result B) : result B :=
  match m with
  | Ok a => k a
  | Raise e => Raise e
  end.

Notation "x <- m ;; k" := (bind m (fun x => k))
  (at level 61, m at next level, right associativity).

Definition returns {A : Type} (m : result A) : Prop :=
  exists a, m = Ok a.

(** ** Floating-point values *)

Inductive num : Type :=
| Fin (r : R)
| PInf
| NInf
| NaN.

Module Num.

Local Open Scope R_scope.

Definition isnan (x : num) : bool :=
  match x with NaN => true | _ => false end.

Definition isfinite (x : num) : bool :=
  match x with Fin _ => true | _ => false end.

Definition neg (x : num) : num :=
  match x with
  | Fin a => Fin (- a)
  | PInf => NInf
  | NInf => PInf
  | NaN => NaN
  end.

Definition add (x y : num) : num :=
  match x, y with
  | NaN, _ | _, NaN => NaN
  | Fin a, Fin b => Fin (a + b)
  | PInf, NInf | NInf, PInf => NaN
  | PInf, _ | _, PInf => PInf
  | NInf, _ | _, NInf => NInf
  end.

Definition sub (x y : num) : num := add x (neg y).

(** The infinity with the sign of [c]; NaN where [c] is [Eq] (a zero
    factor, or a zero over a zero). *)
Definition signed_inf (c : comparison) : num :=
  match c with
  | Gt => PInf
  | Lt => NInf
  | Eq => NaN
  end.

Definition flip (c : comparison) : comparison := CompOpp c.

Definition mul (x y : num) : num :=
  match x, y with
  | NaN, _ | _, NaN => NaN
  | Fin a, Fin b => Fin (a * b)
  | Fin a, PInf | PInf, Fin a => signed_inf (Rcompare a 0)
  | Fin a, NInf | NInf, Fin a => signed_inf (flip (Rcompare a 0))
  | PInf, PInf | NInf, NInf => PInf
  | PInf, NInf | NInf, PInf => NInf
  end.

(** Division; a zero divisor is read as [+0]. *)
Definition div (x y : num) : num :=
  match x, y with
  | NaN, _ | _, NaN => NaN
  | Fin a, Fin b =>
      match Rcompare b 0 with
      | Eq => signed_inf (Rcompare a 0)
      | _ => Fin (a / b)
      end
  | Fin _, _ => Fin 0
  | PInf, Fin b =>
      match Rcompare b 0 with Lt => NInf | _ => PInf end
  | NInf, Fin b =>
      match Rcompare b 0 with Lt => PInf | _ => NInf end
  | _, _ => NaN
  end.

Definition abs (x : num) : num :=
  match x with
  | Fin a => Fin (Rabs a)
  | PInf | NInf => PInf
  | NaN => NaN
  end.

(** [x ** 2]. *)
Definition square (x : num) : num := mul x x.

Definition sqrt (x : num) : num :=
  match x with
  | Fin a =>
      match Rcompare a 0 with
      | Lt => NaN
      | _ => Fin (R_sqrt.sqrt a)
      end
  | PInf => PInf
  | NInf | NaN => NaN
  end.

(** The comparison [x <= y] of floats: false as soon as one side is NaN. *)
Definition le (x y : num) : Prop :=
  match x, y with
  | NaN, _ | _, NaN => False
  | Fin a, Fin b => a <= b
  | NInf, _ | _, PInf => True
  | _, _ => False
  end.


End Num.

(** ** One-dimensional arrays *)

Module Np.

Fixpoint map2 {A B C : Type} (f : A -> B -> C) (xs : list A) (ys : list B)
  : list C :=
  match xs, ys with
  | x :: xs', y :: ys' => f x y :: map2 f xs' ys'
  | _, _ => []
  end.

(** A binary element-wise operation on two arrays: arrays of one length are
    combined position by position, an array of length one is stretched over
    the other, and any other pair of shapes raises. *)
Definition broadcast2 {A B C : Type} (f : A -> B -> C)
    (xs : list A) (ys : list B) : result (list C) :=
  if Nat.eqb (length xs) (length ys) then Ok (map2 f xs ys)
  else
    match xs, ys with
    | [x], _ => Ok (map (f x) ys)
    | _, [y] => Ok (map (fun x => f x y) xs)
    | _, _ => Raise ValueError
    end.

Definition subtract : list num -> list num -> result (list num) :=
  broadcast2 Num.sub.

Definition divide : list num -> list num -> result (list num) :=
  broadcast2 Num.div.

Definition logical_or : list bool -> list bool -> result (list bool) :=
  broadcast2 orb.

Definition isnan (a : list num) : list bool := map Num.isnan a.

Definition invert (m : list bool) : list bool := map negb m.

Fixpoint compress {A : Type} (a : list A) (mask : list bool) : list A :=
  match a, mask with
  | x :: a', b :: mask' =>
      if b then x :: compress a' mask' else compress a' mask'
  | _, _ => []
  end.

(** [a[mask]] for a boolean mask: the mask has to have the length of the
    array, except that numpy lets a mask with no element through on any
    array, where it selects nothing. *)
Definition bool_index {A : Type} (a : list A) (mask : list bool)
  : result (list A) :=
  if Nat.eqb (length a) (length mask) then Ok (compress a mask)
  else
    match mask with
    | [] => Ok []
    | _ :: _ => Raise IndexError
    end.

(** [np.sum]: the elements added up from zero. *)
Definition sum (a : list num) : num := fold_left Num.add a (Fin 0).

(** [np.mean]: the sum over the number of elements; on the empty array this
    is [0 / 0], NaN. *)
Definition mean (a : list num) : num :=
  Num.div (sum a) (Fin (INR (length a))).

Definition abs (a : list num) : list num := map Num.abs a.

Definition square (a : list num) : list num := map Num.square a.

End Np.

(** ** The helpers of [utils.py] *)

(** The residuals [dy] that [plot_tsresiduals] computes before it draws:
<<
    mask = ~(np.isnan(Y) | np.isnan(y))
    Y, y = Y[mask], y[mask]
    dy = Y - y
>>
    The figure itself is not modelled. *)
Definition plot_tsresiduals_dy (Y y : list num) : result (list num) :=
  m <- Np.logical_or (Np.isnan Y) (Np.isnan y) ;;
  let mask := Np.invert m in
  Y' <- Np.bool_index Y mask ;;
  y' <- Np.bool_index y mask ;;
  Np.subtract Y' y'.

(** [np.sqrt(np.mean((Y-y)**2))] *)
Definition RMSE (Y y : list num) : result num :=
  d <- Np.subtract Y y ;;
  Ok (Num.sqrt (Np.mean (Np.square d))).

(** [np.mean(np.abs(Y-y))] *)
Definition MAE (Y y : list num) : result num :=
  d <- Np.subtract Y y ;;
  Ok (Np.mean (Np.abs d)).

(** [100 * np.mean(np.abs((Y-y)/Y))] *)
Definition MAPE (Y y : list num) : result num :=
  d <- Np.subtract Y y ;;
  q <- Np.divide d Y ;;
  Ok (Num.mul (Fin 100) (Np.mean (Np.abs q))).

(** [return np.nan]: the arguments are not looked at, whatever they are. *)
Definition MASE {A B : Type} (Y : A) (y : B) : result num := Ok NaN.

(** ** Time stamps, frequencies and tables *)

Local Open Scope Z_scope.

Inductive timestamp : Type :=
| T (ns : Z)
| NaT.

(** A frequency (a pandas date offset that moves forward): which time
    stamps lie on it, the step to the next and to the previous one, and the
    two roundings of a time stamp that is off it. *)
Record DateOffset : Type := {
  onOffset : Z -> bool;
  next : Z -> Z;
  prev : Z -> Z;
  rollforward : Z -> Z;
  rollback : Z -> Z
}.

(** A fixed-length frequency of [step] nanoseconds ([D], [H], [T], ...):
    every time stamp lies on it. *)
Definition Tick (step : positive) : DateOffset :=
  {| onOffset := fun _ => true;
     next := fun t => t + Z.pos step;
     prev := fun t => t - Z.pos step;
     rollforward := fun t => t;
     rollback := fun t => t |}.

(** The frequency [date_range] falls back on without one: a calendar day. *)
Definition Day : DateOffset := Tick 86400000000000.

(** The day of the week of a time stamp, Monday being 0 (the first day of
    the epoch is a Thursday). *)
Definition nanos_per_day : Z := 86400000000000.

Definition weekday (t : Z) : Z := (t / nanos_per_day + 3) mod 7.

(** The business-day frequency [B]: the week days lie on it, a step skips
    the weekend, and the time of day is kept. *)
Definition BusinessDay : DateOffset :=
  {| onOffset := fun t => weekday t <? 5;
     next := fun t =>
       t + nanos_per_day * match weekday t with 4 => 3 | 5 => 2 | _ => 1 end;
     prev := fun t =>
       t - nanos_per_day * match weekday t with 0 => 3 | 6 => 2 | _ => 1 end;
     rollforward := fun t =>
       t + nanos_per_day * match weekday t with 5 => 2 | 6 => 1 | _ => 0 end;
     rollback := fun t =>
       t - nanos_per_day * match weekday t with 5 => 1 | 6 => 2 | _ => 0 end
  |}.

(** [t + n * freq] on time stamp values: [n] steps forward, or [-n] steps
    backward. *)
Definition apply_n (freq : DateOffset) (n : Z) (t : Z) : Z :=
  if 0 <=? n then Nat.iter (Z.to_nat n) (next freq) t
  else Nat.iter (Z.to_nat (- n)) (prev freq) t.

(** The nanosecond counts pandas takes for a time stamp, [Timestamp.min]
    to [Timestamp.max]: from 1677-09-21 00:12:43.145225 to
    2262-04-11 23:47:16.854775807, the last count that 64 bits hold.
    (Versions of pandas later than the one the notebook names take the 807
    counts before the first as well.) *)
Definition ts_min : Z := - 9223372036854775000.

Definition ts_max : Z := 9223372036854775807.

Definition is_timestamp (z : Z) : bool := (ts_min <=? z) && (z <=? ts_max).

(** The nanosecond counts of a duration: what 64 bits hold, but the least
    count, which stands for a missing one. *)
Definition td_max : Z := 9223372036854775807.

Definition is_duration (d : Z) : bool := (- td_max <=? d) && (d <=? td_max).

(** A time stamp [z] can be moved to [z'] when [z'] is a time stamp and the
    distance is a duration. *)
Definition can_shift (z z' : Z) : bool :=
  is_timestamp z' && is_duration (z' - z).

(** The time stamp [z] moved to [z'].  Where that does not fit pandas
    raises [OutOfBoundsDatetime], or an [OverflowError] from the integer
    conversion, depending on the version and on where the count overflows;
    the one exception here stands for both. *)
Definition checked_shift (z z' : Z) : result timestamp :=
  if can_shift z z' then Ok (T z') else Raise OutOfBoundsDatetime.

(** [t + n * freq]; the product [n * freq] needs a frequency. *)
Definition add_steps (t : timestamp) (n : Z) (freq : option DateOffset)
  : result timestamp :=
  match freq with
  | None => Raise TypeError
  | Some off =>
      match t with
      | T z => checked_shift z (apply_n off n z)
      | NaT => Ok NaT
      end
  end.

(** [t + d] and [t - d] for a duration of [d] nanoseconds. *)
Definition add_delta (t : timestamp) (d : Z) : result timestamp :=
  match t with
  | T z => checked_shift z (z + d)
  | NaT => Ok NaT
  end.

Definition sub_delta (t : timestamp) (d : Z) : result timestamp :=
  match t with
  | T z => checked_shift z (z - d)
  | NaT => Ok NaT
  end.

(** A step [dt] as [extend_timeseries] tells it apart at run time: a Python
    [int], or anything else, which [pd.to_timedelta] turns into a duration
    (given here in nanoseconds). *)
Inductive step : Type :=
| StepInt (n : Z)
| StepDelta (d : Z).

(** A table: the labels of its rows, the frequency set on its index, and
    its columns in order, each a name with one value per row. *)
Record DataFrame : Type := {
  index : list Z;
  freq : option DateOffset;
  columns : list (string * list num)
}.

Definition column_names (df : DataFrame) : list string :=
  map fst (columns df).

Definition index_min (df : DataFrame) : timestamp :=
  match index df with
  | [] => NaT
  | t :: ts => T (fold_left Z.min ts t)
  end.

Definition index_max (df : DataFrame) : timestamp :=
  match index df with
  | [] => NaT
  | t :: ts => T (fold_left Z.max ts t)
  end.

Module Pd.

(** The loop of pandas' range generator:
<<
    while cur <= end:
        yield cur
        if cur == end: break
        next_date = offset.apply(cur)
        if next_date <= cur: raise ValueError
        cur = next_date
>>
    Every round moves [cur] up by at least one, so [end - cur + 1] rounds
    are enough; [generate_range] starts it with that many.  (For a
    fixed-length frequency pandas computes the same labels with one
    [np.arange].) *)
Fixpoint generate_loop (off : DateOffset) (fuel : nat) (cur stop : Z)
  : result (list Z) :=
  match fuel with
  | O => Ok []
  | S fuel' =>
      if cur <=? stop then
        if cur =? stop then Ok [cur]
        else
          let next_date := next off cur in
          if next_date <=? cur then Raise ValueError
          else
            rest <- generate_loop off fuel' next_date stop ;;
            Ok (cur :: rest)
      else Ok []
  end.

Definition generate_range (off : DateOffset) (start stop : Z)
  : result (list Z) :=
  let start' :=
    if onOffset off start then start else rollforward off start in
  let stop' :=
    if onOffset off start then
      if onOffset off stop then stop else rollback off stop
    else stop in
  if stop' <? start' then Ok []
  else generate_loop off (Z.to_nat (stop' - start' + 1)) start' stop'.

(** [pd.date_range(start, end, freq=freq)]: the index and the frequency it
    carries. *)
Definition date_range (start stop : timestamp) (freq : option DateOffset)
  : result (list Z * DateOffset) :=
  let off := match freq with Some off => off | None => Day end in
  match start, stop with
  | T s, T e =>
      idx <- generate_range off s e ;;
      Ok (idx, off)
  | _, _ => Raise ValueError
  end.

Definition Z_mem (x : Z) (l : list Z) : bool := existsb (Z.eqb x) l.

Fixpoint is_unique (l : list Z) : bool :=
  match l with
  | [] => true
  | x :: l' => negb (Z_mem x l') && is_unique l'
  end.

(** The position of the first row labelled [x]. *)
Fixpoint get_loc (x : Z) (l : list Z) : option nat :=
  match l with
  | [] => None
  | y :: l' =>
      if Z.eqb x y then Some O
      else option_map S (get_loc x l')
  end.

(** The values of a column at the labels [target]; NaN at a label the
    table does not have. *)
Definition take (old : list Z) (col : list num) (target : list Z)
  : list num :=
  map (fun x =>
         match get_loc x old with
         | Some i => nth i col NaN
         | None => NaN
         end) target.

Definition index_equals (a b : list Z) : bool :=
  if list_eq_dec Z.eq_dec a b then true else false.

(** [df.reindex(index)].  An index equal to the table's own is kept as it
    is; otherwise the labels of the table have to be unique. *)
Definition reindex (df : DataFrame) (target : list Z * DateOffset)
  : result DataFrame :=
  let '(idx, off) := target in
  if index_equals (index df) idx then
    Ok {| index := idx; freq := Some off; columns := columns df |}
  else if is_unique (index df) then
    Ok {| index := idx; freq := Some off;
          columns :=
            map (fun c => (fst c, take (index df) (snd c) idx))
                (columns df) |}
  else Raise ValueError.

Definition str_mem (x : string) (l : list string) : bool :=
  existsb (String.eqb x) l.

(** An array made to fit [n] rows: an array with one value per row is
    taken as it is, an array of one value is repeated over the rows, and
    any other raises. *)
Definition fit_column (n : nat) (col : list num) : result (list num) :=
  if Nat.eqb (List.length col) n then Ok col
  else
    match col with
    | [v] => Ok (repeat v n)
    | _ => Raise ValueError
    end.

Fixpoint fit_columns (n : nat) (data : list (string * list num))
  : result (list (string * list num)) :=
  match data with
  | [] => Ok []
  | c :: data' =>
      col <- fit_column n (snd c) ;;
      rest <- fit_columns n data' ;;
      Ok ((fst c, col) :: rest)
  end.

(** [pd.DataFrame(data, index=index)] for [data] a mapping from names to
    arrays: every array is made to fit the labels. *)
Definition make_frame (data : list (string * list num)) (df : DataFrame)
  : result DataFrame :=
  cols <- fit_columns (List.length (index df)) data ;;
  Ok {| index := index df; freq := freq df; columns := cols |}.

(** [df.drop(columns=names)]: a name the table does not have raises. *)
Definition drop (df : DataFrame) (names : list string) : result DataFrame :=
  if forallb (fun n => str_mem n (column_names df)) names then
    Ok {| index := index df; freq := freq df;
          columns :=
            filter (fun c => negb (str_mem (fst c) names)) (columns df) |}
  else Raise KeyError.

(** [left.join(right)]: the columns of [right], aligned on the labels of
    [left], are put after those of [left]; a name on both sides raises.
    Labels are taken to be unique on both sides (on a repeated label pandas
    pairs up every row of the one side with every row of the other, which
    is not modelled). *)
Definition join (left right : DataFrame) : result DataFrame :=
  if existsb (fun n => str_mem n (column_names right)) (column_names left)
  then Raise ValueError
  else
    Ok {| index := index left; freq := freq left;
          columns :=
            columns left ++
            map (fun c => (fst c, take (index right) (snd c) (index left)))
                (columns right) |}.

End Pd.

(** [compute(df, f)]:
<<
    newdf = pd.DataFrame(f(df), index=df.index)
    dropcols = [col for col in newdf.columns if col in df.columns]
    if dropcols:
        df = df.drop(columns=dropcols)
    return df.join(newdf)
>> *)
Definition compute (df : DataFrame)
    (f : DataFrame -> list (string * list num)) : result DataFrame :=
  newdf <- Pd.make_frame (f df) df ;;
  let dropcols :=
    filter (fun col => Pd.str_mem col (column_names df))
           (column_names newdf) in
  df' <- match dropcols with
         | [] => Ok df
         | _ :: _ => Pd.drop df dropcols
         end ;;
  Pd.join df' newdf.

(** The bounds [extend_timeseries] hands to [pd.date_range]:
<<
    freq = df.index.freq
    if tmax is tmin is dt is None:
        dt = 1
    if tmin is None:
        tmin = df.index.min()
    if tmax is None:
        tmax = df.index.max()
    if dt is not None:
        if isinstance(dt, int):
            if dt > 0:
                tmax += dt * freq
            elif dt < 0:
                tmin += dt * freq
        else:
            dt = pd.to_timedelta(dt)
            if dt > pd.to_timedelta('0d'):
                tmax += dt
            else:
                tmin -= dt
>>
    The result is the pair [(tmin, tmax)]. *)
Definition extend_bounds (df : DataFrame) (tmax tmin : option timestamp)
    (dt : option step) : result (timestamp * timestamp) :=
  let dt :=
    match tmax, tmin, dt with
    | None, None, None => Some (StepInt 1)
    | _, _, _ => dt
    end in
  let tmin := match tmin with None => index_min df | Some t => t end in
  let tmax := match tmax with None => index_max df | Some t => t end in
  match dt with
  | None => Ok (tmin, tmax)
  | Some (StepInt n) =>
      if 0 <? n then
        tmax' <- add_steps tmax n (freq df) ;;
        Ok (tmin, tmax')
      else if n <? 0 then
        tmin' <- add_steps tmin n (freq df) ;;
        Ok (tmin', tmax)
      else Ok (tmin, tmax)
  | Some (StepDelta d) =>
      if 0 <? d then
        tmax' <- add_delta tmax d ;;
        Ok (tmin, tmax')
      else
        tmin' <- sub_delta tmin d ;;
        Ok (tmin', tmax)
  end.

(** [extend_timeseries(df, tmax, tmin, dt)], which ends
<<
    index = pd.date_range(tmin, tmax, freq=freq)
    return df.reindex(index)
>> *)
Definition extend_timeseries (df : DataFrame) (tmax tmin : option timestamp)
    (dt : option step) : result DataFrame :=
  b <- extend_bounds df tmax tmin dt ;;
  idx <- Pd.date_range (fst b) (snd b) (freq df) ;;
  Pd.reindex df idx.

(** ** Vocabulary of the statements *)

(** The laws of a frequency, on the time stamps that lie on it: a step
    stays on it, a step forward moves strictly later, and the steps forward
    and backward undo each other. *)
Record Lawful (off : DateOffset) : Prop := {
  next_on : forall t, onOffset off t = true -> onOffset off (next off t) = true;
  prev_on : forall t, onOffset off t = true -> onOffset off (prev off t) = true;
  next_gt : forall t, onOffset off t = true -> t < next off t;
  prev_next : forall t, onOffset off t = true -> prev off (next off t) = t;
  next_prev : forall t, onOffset off t = true -> next off (prev off t) = t
}.

(** An index conforms to a frequency when its labels lie on it and each is
    one step after the one before. *)
Fixpoint conforms (off : DateOffset) (l : list Z) : bool :=
  match l with
  | [] => true
  | t :: l' =>
      onOffset off t
      && match l' with
         | [] => true
         | u :: _ => Z.eqb u (next off t)
         end
      && conforms off l'
  end.

(** The [k] time stamps that follow [t] on a frequency, in order. *)
Fixpoint steps_after (off : DateOffset) (t : Z) (k : nat) : list Z :=
  match k with
  | O => []
  | S k' => next off t :: steps_after off (next off t) k'
  end.

(** The [k] time stamps that precede [t] on a frequency, in order. *)
Fixpoint steps_before (off : DateOffset) (t : Z) (k : nat) : list Z :=
  match k with
  | O => []
  | S k' => steps_before off (prev off t) k' ++ [prev off t]
  end.

(** A bound as given, or the end of the index where none is given. *)
Definition given_or (t : option timestamp) (d : timestamp) : timestamp :=
  match t with
  | Some t => t
  | None => d
  end.

(** A time stamp moved [k] steps of a frequency forward, and backward. *)
Definition shift_forward (off : DateOffset) (k : nat) (t : timestamp)
  : timestamp :=
  match t with
  | T z => T (Nat.iter k (next off) z)
  | NaT => NaT
  end.

Definition shift_backward (off : DateOffset) (k : nat) (t : timestamp)
  : timestamp :=
  match t with
  | T z => T (Nat.iter k (prev off) z)
  | NaT => NaT
  end.

(** The move from a time stamp to another fits (there is nothing to fit
    where either is NaT). *)
Definition reachable (t t' : timestamp) : bool :=
  match t, t' with
  | T z, T z' => can_shift z z'
  | _, _ => true
  end.

(** Room for [k] more rows after a table that ends at the label [t]: the
    label can be moved [k] steps forward, and the label one step further is
    a time stamp still (the statements on added rows keep one step clear of
    the last time stamp there is). *)
Definition room_after (off : DateOffset) (t : Z) (k : nat) : bool :=
  can_shift t (Nat.iter k (next off) t)
  && is_timestamp (next off (Nat.iter k (next off) t)).

(** Room for [k] more rows before a table that begins at the label [t]. *)
Definition room_before (off : DateOffset) (t : Z) (k : nat) : bool :=
  can_shift t (Nat.iter k (prev off) t).

(** Every column of a table has one value per row. *)
Definition well_formed (df : DataFrame) : Prop :=
  Forall (fun c => List.length (snd c) = List.length (index df)) (columns df).

(** A table indexed regularly at the frequency [off]: the frequency is set
    on its index, and its index is not empty and conforms to it. *)
Record regular (df : DataFrame) (off : DateOffset) : Prop := {
  regular_freq : freq df = Some off;
  regular_lawful : Lawful off;
  regular_conforms : conforms off (index df) = true;
  regular_nonempty : index df <> [];
  regular_wf : well_formed df
}.

(** A table whose frequency can be detected: its index conforms to a
    frequency and has the three labels [pd.infer_freq] asks for.  Whether
    that frequency is set on the index is a separate matter. *)
Record detectable (df : DataFrame) (off : DateOffset) : Prop := {
  detectable_lawful : Lawful off;
  detectable_conforms : conforms off (index df) = true;
  detectable_length : (3 <= List.length (index df))%nat;
  detectable_wf : well_formed df
}.

(** [k] missing values. *)
Definition missing (k : nat) : list num := repeat NaN k.


(** Called with no argument, [extend_timeseries] returns the table with
    one row more, one step of the frequency after the last label: the first
    label is the same, and every column keeps its values and is missing in
    the new row. *)
Definition adds_one_step (df : DataFrame) (off : DateOffset) : Prop :=
  exists tmin tmax r,
    index_min df = T tmin /\
    index_max df = T tmax /\
    extend_timeseries df None None None = Ok r /\
    index r = index df ++ [next off tmax] /\
    tmax < next off tmax /\
    index_min r = T tmin /\
    columns r = map (fun c => (fst c, snd c ++ [NaN])) (columns df).

Local Open Scope R_scope.

(** The residuals as the specification words them: the positions where
    either value is missing are dropped from both sequences together, and
    each residual is the observed value minus the predicted one. *)
Definition residuals_spec (Y y : list num) : list num :=
  map (fun p => Num.sub (fst p) (snd p))
      (filter (fun p => negb (Num.isnan (fst p) || Num.isnan (snd p)))
              (combine Y y)).

Definition Rsum (l : list R) : R := fold_right Rplus 0 l.

Definition Rmean (l : list R) : R := Rsum l / INR (List.length l).

(** The absolute percentage errors [|(Y - y) / Y|] of real sequences. *)
Definition abs_pct_errors (Y y : list R) : list R :=
  Np.map2 (fun a b => Rabs ((a - b) / a)) Y y.

(** MAPE as the specification words it: 100 times the mean of
    [|(Y - y) / Y|]. *)
Definition mape_formula (Y y : list R) : R :=
  100 * Rmean (abs_pct_errors Y y).


Local Close Scope R_scope.

(** ** Sample tables *)

(** Three rows, ten nanoseconds apart, with two columns. *)
Definition sample_table : DataFrame :=
  {| index := [10; 20; 30]%Z;
     freq := Some (Tick 10);
     columns := [("a"%string, [Fin 1; Fin 2; Fin 3]);
                 ("b"%string, [Fin 4; Fin 5; Fin 6])] |}.

(** The same table, read in without a frequency set on its index. *)
Definition sample_table_unset : DataFrame :=
  {| index := index sample_table;
     freq := None;
     columns := columns sample_table |}.

(** Two rows on the first Thursday and Friday of the epoch, at the
    business-day frequency. *)
Definition sample_week_table : DataFrame :=
  {| index := [0; 86400000000000]%Z;
     freq := Some BusinessDay;
     columns := [("a"%string, [Fin 1; Fin 2])] |}.

(** Three rows ten nanoseconds apart that end at the last time stamp there
    is, and three rows a microsecond apart that begin at the first. *)
Definition sample_table_last : DataFrame :=
  {| index := [ts_max - 20; ts_max - 10; ts_max]%Z;
     freq := Some (Tick 10);
     columns := [("a"%string, [Fin 1; Fin 2; Fin 3])] |}.

Definition sample_table_first : DataFrame :=
  {| index := [ts_min; ts_min + 1000; ts_min + 2000]%Z;
     freq := Some (Tick 1000);
     columns := [("a"%string, [Fin 1; Fin 2; Fin 3])] |}.

(** The first three days of 2020, at the daily frequency. *)
Definition sample_daily_table : DataFrame :=
  {| index := [1577836800000000000; 1577923200000000000;
               1578009600000000000]%Z;
     freq := Some Day;
     columns := [("a"%string, [Fin 1; Fin 2; Fin 3])] |}.

(** A user function for [compute]: a replacement for column [b] and a new
    column [c]. *)
Definition sample_columns (df : DataFrame) : list (string * list num) :=
  [("b"%string, [Fin 0; Fin 0; Fin 0]);
   ("c"%string, [Fin 7; Fin 8; Fin 9])].

(** ** Further helpers of [utils.py] *)

(** Comparison and the reductions of arrays that the limits of a plot
    need. *)
Module Ord.

(** [x < y] on floats: false as soon as one side is NaN. *)
Definition ltb (x y : num) : bool :=
  match x, y with
  | NaN, _ | _, NaN => false
  | Fin a, Fin b =>
      match Rcompare a b with
      | Lt => true
      | _ => false
      end
  | PInf, _ => false
  | _, NInf => false
  | _, _ => true
  end.

(** [np.minimum] and [np.maximum]: a NaN on either side wins. *)
Definition minimum (x y : num) : num :=
  if Num.isnan x then x
  else if Num.isnan y then y
  else if ltb y x then y else x.

Definition maximum (x y : num) : num :=
  if Num.isnan x then x
  else if Num.isnan y then y
  else if ltb x y then y else x.

(** [a.min()] and [a.max()]: an array with no element has no minimum. *)
Definition amin (a : list num) : result num :=
  match a with
  | [] => Raise ValueError
  | x :: a' => Ok (fold_left minimum a' x)
  end.

Definition amax (a : list num) : result num :=
  match a with
  | [] => Raise ValueError
  | x :: a' => Ok (fold_left maximum a' x)
  end.

(** Python's [max(a, b)]: the second argument only when it is greater. *)
Definition py_max (a b : num) : num := if ltb a b then b else a.

End Ord.

(** The limits of the residual panel of [plot_tsresiduals]:
<<
    lim = 1.1 * max(-dy.min(), dy.max())
    lim = -lim, lim
>>
    (the factor is taken as the number 11/10). *)
Definition plot_tsresiduals_lim (Y y : list num) : result (num * num) :=
  dy <- plot_tsresiduals_dy Y y ;;
  lo <- Ord.amin dy ;;
  hi <- Ord.amax dy ;;
  let lim := Num.mul (Fin (11 / 10)%R) (Ord.py_max (Num.neg lo) hi) in
  Ok (Num.neg lim, lim).

(** [ciclean(ci_df)]:
<<
    ci_df = ci_df.copy()
    ci_df.columns = 'lower', 'upper'
    return ci_df
>>
    Two names fit a table of two columns only. *)
Definition ciclean (ci_df : DataFrame) : result DataFrame :=
  match columns ci_df with
  | [(_, lo); (_, hi)] =>
      Ok {| index := index ci_df; freq := freq ci_df;
            columns := [("lower"%string, lo); ("upper"%string, hi)] |}
  | _ => Raise ValueError
  end.

Section SetFreq.

(** [pd.infer_freq], which is not part of [utils.py]: it raises on an index
    it cannot work on, and returns no frequency where it finds none. *)
Variable infer_freq : list Z -> result (option DateOffset).

(** [df.asfreq(freq)]: the table reindexed over the range from its first to
    its last label; a table with no row only has the frequency set. *)
Definition asfreq (df : DataFrame) (f : option DateOffset)
  : result DataFrame :=
  match index df with
  | [] => Ok {| index := []; freq := f; columns := columns df |}
  | t :: l =>
      idx <- Pd.date_range (T t) (T (last l t)) f ;;
      Pd.reindex df idx
  end.

(** [set_freq(df, freq)]:
<<
    if freq is None:
        freq = pd.infer_freq(df.index)
    return df.asfreq(freq)
>> *)
Definition set_freq (df : DataFrame) (f : option DateOffset)
  : result DataFrame :=
  f' <- match f with
        | None => infer_freq (index df)
        | Some _ => Ok f
        end ;;
  asfreq df f'.

End SetFreq.

(** The rows of a column from position [i] on, [k] of them. *)
Definition rows (i k : nat) (col : list num) : list num :=
  firstn k (skipn i col).

(** The part of a table on the rows from position [i] on, [k] of them, at
    the frequency [off]. *)
Definition restrict (df : DataFrame) (off : DateOffset) (i k : nat)
  : DataFrame :=
  {| index := firstn k (skipn i (index df));
     freq := Some off;
     columns := map (fun c => (fst c, rows i k (snd c))) (columns df) |}.

(** * Properties *)

(** ** The [result] type *)

Lemma bind_Ok {A B : Type} (a : A) (k : A -> result B) :
  bind (Ok a) k = k a.
Proof. reflexivity. Qed.

Lemma returns_Ok {A : Type} (a : A) : returns (Ok a).
Proof. now exists a. Qed.

Lemma not_returns_Raise {A : Type} (e : exn) : ~ returns (@Raise A e).
Proof. intros [a Ha]; discriminate. Qed.

(** ** Special values *)

Example add_opposite_infinities : Num.add PInf NInf = NaN.
Proof. reflexivity. Qed.

Example add_infinity_finite (a : R) :
  Num.add (Fin a) PInf = PInf /\ Num.add NInf (Fin a) = NInf.
Proof. split; reflexivity. Qed.

Example sub_equal_infinities : Num.sub PInf PInf = NaN.
Proof. reflexivity. Qed.

Example mul_infinities : Num.mul PInf NInf = NInf /\ Num.mul NInf NInf = PInf.
Proof. split; reflexivity. Qed.

Example div_by_infinity (a : R) :
  Num.div (Fin a) PInf = Fin 0 /\ Num.div PInf NInf = NaN.
Proof. split; reflexivity. Qed.

Example nan_is_absorbing (x : num) :
  Num.add NaN x = NaN /\ Num.add x NaN = NaN /\
  Num.mul NaN x = NaN /\ Num.mul x NaN = NaN /\
  Num.div NaN x = NaN /\ Num.div x NaN = NaN.
Proof. destruct x; repeat split. Qed.

Example le_on_special_values :
  Num.le NInf PInf /\ Num.le PInf PInf /\ Num.le NInf NInf /\
  ~ Num.le PInf NInf /\ ~ Num.le NaN NaN /\
  (forall a, Num.le (Fin a) PInf /\ Num.le NInf (Fin a) /\
             ~ Num.le PInf (Fin a) /\ ~ Num.le (Fin a) NInf /\
             ~ Num.le (Fin a) NaN /\ ~ Num.le NaN (Fin a)).
Proof. simpl; tauto. Qed.

(** ** Arrays *)

Section ArrayFacts.

Context {A B C : Type}.

Lemma map2_length (f : A -> B -> C) (xs : list A) (ys : list B) :
  List.length xs = List.length ys ->
  List.length (Np.map2 f xs ys) = List.length xs.
Proof.
  revert ys; induction xs as [|x xs IH]; intros [|y ys] H;
    simpl in *; try discriminate; auto.
Qed.

Lemma broadcast2_same_length (f : A -> B -> C) (xs : list A) (ys : list B) :
  List.length xs = List.length ys ->
  Np.broadcast2 f xs ys = Ok (Np.map2 f xs ys).
Proof.
  intros H; unfold Np.broadcast2.
  now rewrite H, Nat.eqb_refl.
Qed.

Lemma broadcast2_returns_length (f : A -> B -> C) xs ys zs :
  Np.broadcast2 f xs ys = Ok zs ->
  List.length xs <> List.length ys ->
  (List.length xs = 1%nat /\ List.length zs = List.length ys) \/
  (List.length ys = 1%nat /\ List.length zs = List.length xs).
Proof.
  unfold Np.broadcast2; intros H Hne.
  apply Nat.eqb_neq in Hne; rewrite Hne in H.
  destruct xs as [|x [|x' xs]].
  - destruct ys as [|y [|y' ys]]; try discriminate.
    injection H as <-; right; auto.
  - injection H as <-; left; split; auto. apply length_map.
  - destruct ys as [|y [|y' ys]]; try discriminate.
    injection H as <-; right; split; auto.
    simpl; now rewrite length_map.
Qed.

End ArrayFacts.

(** ** Residuals *)

Lemma residuals_compress (Y y : list num) :
  List.length Y = List.length y ->
  let mask := Np.invert (Np.map2 orb (Np.isnan Y) (Np.isnan y)) in
  List.length mask = List.length Y /\
  List.length (Np.compress Y mask) = List.length (Np.compress y mask) /\
  Np.map2 Num.sub (Np.compress Y mask) (Np.compress y mask) =
  residuals_spec Y y.
Proof.
  revert y; induction Y as [|a Y IH]; intros [|b y] H; simpl in *;
    try discriminate; auto.
  injection H as H. destruct (IH y H) as (Hm & Hc & Hr).
  unfold residuals_spec; simpl.
  destruct (Num.isnan a || Num.isnan b); simpl.
  - repeat split; auto.
  - repeat split; auto. now f_equal.
Qed.

Lemma plot_tsresiduals_dy_same_length (Y y : list num) :
  List.length Y = List.length y ->
  plot_tsresiduals_dy Y y = Ok (residuals_spec Y y).
Proof.
  intros H. destruct (residuals_compress Y y H) as (Hm & Hc & Hr).
  unfold plot_tsresiduals_dy, Np.logical_or.
  rewrite broadcast2_same_length
    by (unfold Np.isnan; now rewrite !length_map).
  simpl. unfold Np.bool_index.
  rewrite Hm, Nat.eqb_refl; simpl.
  rewrite <- H, Nat.eqb_refl; simpl.
  unfold Np.subtract.
  rewrite broadcast2_same_length by exact Hc.
  now rewrite Hr.
Qed.

Lemma bool_index_misfit {A : Type} (a : list A) (mask : list bool) :
  List.length a <> List.length mask ->
  mask <> [] ->
  Np.bool_index a mask = Raise IndexError.
Proof.
  intros Hne Hm. unfold Np.bool_index.
  apply Nat.eqb_neq in Hne; rewrite Hne.
  destruct mask; congruence.
Qed.

(** Sequences of different lengths make the residual computation raise --
    either the masks do not combine, or the combined mask does not fit one
    of the two sequences -- unless one has one value and the other none. *)
Lemma plot_tsresiduals_dy_shape_mismatch (Y y : list num) :
  List.length Y <> List.length y ->
  (List.length Y + List.length y <> 1)%nat ->
  ~ returns (plot_tsresiduals_dy Y y).
Proof.
  intros Hne Hone [r Hr]. unfold plot_tsresiduals_dy, Np.logical_or in Hr.
  destruct (Np.broadcast2 orb (Np.isnan Y) (Np.isnan y)) as [m|e] eqn:Hm;
    [|discriminate].
  apply broadcast2_returns_length in Hm;
    [|unfold Np.isnan; now rewrite !length_map].
  unfold Np.isnan in Hm; rewrite !length_map in Hm.
  rewrite bind_Ok in Hr. cbv zeta in Hr.
  assert (Hlen : List.length (Np.invert m) = List.length m)
    by (unfold Np.invert; apply length_map).
  destruct Hm as [[H1 Hl]|[H1 Hl]].
  - rewrite bool_index_misfit in Hr; [discriminate| |].
    + rewrite Hlen, Hl. exact Hne.
    + intros E. rewrite E in Hlen. simpl in Hlen. lia.
  - unfold Np.bool_index at 1 in Hr.
    rewrite Hlen, Hl, Nat.eqb_refl, bind_Ok in Hr.
    rewrite bool_index_misfit in Hr; [discriminate| |].
    + rewrite Hlen, Hl. congruence.
    + intros E. rewrite E in Hlen. simpl in Hlen. lia.
Qed.

(** In that one case the mask has no element: it selects nothing from
    either sequence, and there is no residual. *)
Lemma plot_tsresiduals_dy_one_and_none (v : num) :
  plot_tsresiduals_dy [v] [] = Ok [] /\ plot_tsresiduals_dy [] [v] = Ok [].
Proof. split; reflexivity. Qed.

(** C1.  For observed and predicted sequences of one length, the residuals
    computed by [plot_tsresiduals] are those of the sequences with the
    positions where either value is NaN dropped from both, each residual
    being observed minus predicted; for Y = [1,2,3] and y = [1,1,1] they
    are [0,1,2]. *)
Theorem plot_tsresiduals_drops_pairwise_then_subtracts :
  (forall Y y : list num,
      List.length Y = List.length y ->
      plot_tsresiduals_dy Y y = Ok (residuals_spec Y y)) /\
  plot_tsresiduals_dy [Fin 1; Fin 2; Fin 3] [Fin 1; Fin 1; Fin 1]
  = Ok [Fin 0; Fin 1; Fin 2].
Proof.
  split.
  - exact plot_tsresiduals_dy_same_length.
  - rewrite plot_tsresiduals_dy_same_length by reflexivity.
    unfold residuals_spec; simpl. unfold Num.sub; simpl.
    repeat f_equal; lra.
Qed.

Lemma plot_tsresiduals_drops_pairwise_then_subtracts_witness :
  plot_tsresiduals_dy [Fin 5; NaN; Fin 3; Fin 4] [Fin 1; Fin 1; NaN; Fin 6]
  = Ok [Num.sub (Fin 5) (Fin 1); Num.sub (Fin 4) (Fin 6)].
Proof.
  exact (proj1 plot_tsresiduals_drops_pairwise_then_subtracts
           [Fin 5; NaN; Fin 3; Fin 4] [Fin 1; Fin 1; NaN; Fin 6]
           eq_refl).
Defined.

(** ** Arithmetic on finite values *)

Section FiniteArithmetic.

Local Open Scope R_scope.


Lemma Rcompare_neg (a : R) : a < 0 -> Rcompare a 0 = Lt.
Proof. intros H; destruct (Rcompare_spec a 0); auto; lra. Qed.


Lemma Rcompare_nonneg (a : R) : 0 <= a -> Rcompare a 0 <> Lt.
Proof. intros H; destruct (Rcompare_spec a 0); try discriminate; lra. Qed.

Lemma Rcompare_nonzero (a : R) : a <> 0 -> Rcompare a 0 <> Eq.
Proof. intros H; destruct (Rcompare_spec a 0); try discriminate; lra. Qed.

Lemma div_Fin_nonzero (a b : R) :
  b <> 0 -> Num.div (Fin a) (Fin b) = Fin (a / b).
Proof.
  intros H; simpl.
  destruct (Rcompare b 0) eqn:E; auto.
  now apply Rcompare_nonzero in H.
Qed.

Lemma sqrt_Fin_nonneg (a : R) :
  0 <= a -> Num.sqrt (Fin a) = Fin (sqrt a).
Proof.
  intros H; simpl.
  destruct (Rcompare a 0) eqn:E; auto.
  now apply Rcompare_nonneg in H.
Qed.

Lemma fold_add_Fin (l : list R) (a : R) :
  fold_left Num.add (map Fin l) (Fin a) = Fin (a + Rsum l).
Proof.
  revert a; induction l as [|x l IH]; intros a; simpl.
  - f_equal; lra.
  - rewrite IH; f_equal; lra.
Qed.

Lemma sum_Fin (l : list R) : Np.sum (map Fin l) = Fin (Rsum l).
Proof. unfold Np.sum; rewrite fold_add_Fin; f_equal; lra. Qed.

Lemma INR_length_pos {A : Type} (l : list A) :
  l <> [] -> 0 < INR (List.length l).
Proof.
  destruct l as [|x l]; [congruence|intros _].
  apply lt_0_INR; simpl; lia.
Qed.


Lemma mean_Fin (l : list R) :
  l <> [] -> Np.mean (map Fin l) = Fin (Rmean l).
Proof.
  intros H; unfold Np.mean.
  rewrite sum_Fin, length_map, div_Fin_nonzero; auto.
  apply INR_length_pos in H; lra.
Qed.

Lemma subtract_Fin (Y y : list R) :
  List.length Y = List.length y ->
  Np.subtract (map Fin Y) (map Fin y) = Ok (map Fin (Np.map2 Rminus Y y)).
Proof.
  intros H; unfold Np.subtract.
  rewrite broadcast2_same_length by (now rewrite !length_map).
  f_equal. revert y H; induction Y as [|a Y IH]; intros [|b y] H;
    simpl in *; try discriminate; auto.
  f_equal; auto.
Qed.


Lemma Rsum_sq_nonneg (l : list R) : 0 <= Rsum (map (fun x => x * x) l).
Proof.
  induction l as [|x l IH]; simpl; [lra|]. nra.
Qed.

End FiniteArithmetic.

(** ** RMSE and MAE *)

Section ErrorMetrics.

Local Open Scope R_scope.

Lemma square_Fin (l : list R) :
  Np.square (map Fin l) = map Fin (map (fun x => x * x) l).
Proof. unfold Np.square; now rewrite !map_map. Qed.

Lemma abs_Fin (l : list R) : Np.abs (map Fin l) = map Fin (map Rabs l).
Proof. unfold Np.abs; now rewrite !map_map. Qed.

Lemma map2_nonempty {A B C : Type} (f : A -> B -> C) xs ys :
  List.length xs = List.length ys -> xs <> [] -> Np.map2 f xs ys <> [].
Proof.
  destruct xs, ys; simpl; try discriminate; congruence.
Qed.

Lemma map_nonempty {A B : Type} (f : A -> B) l : l <> [] -> map f l <> [].
Proof. destruct l; simpl; congruence. Qed.

Lemma Rmean_sq_nonneg (l : list R) :
  l <> [] -> 0 <= Rmean (map (fun x => x * x) l).
Proof.
  intros H; unfold Rmean; rewrite length_map.
  apply Rmult_le_pos; [apply Rsum_sq_nonneg|].
  left; apply Rinv_0_lt_compat; now apply INR_length_pos.
Qed.

(** On real sequences of one length, not empty, both metrics are the
    textbook formulas of the differences. *)
Lemma RMSE_Fin (Y y : list R) :
  List.length Y = List.length y -> Y <> [] ->
  RMSE (map Fin Y) (map Fin y)
  = Ok (Fin (sqrt (Rmean (map (fun x => x * x) (Np.map2 Rminus Y y))))).
Proof.
  intros H Hne; unfold RMSE.
  rewrite subtract_Fin by exact H; simpl.
  assert (Hd : Np.map2 Rminus Y y <> []) by now apply map2_nonempty.
  rewrite square_Fin, mean_Fin by now apply map_nonempty.
  now rewrite sqrt_Fin_nonneg by now apply Rmean_sq_nonneg.
Qed.

Lemma MAE_Fin (Y y : list R) :
  List.length Y = List.length y -> Y <> [] ->
  MAE (map Fin Y) (map Fin y)
  = Ok (Fin (Rmean (map Rabs (Np.map2 Rminus Y y)))).
Proof.
  intros H Hne; unfold MAE.
  rewrite subtract_Fin by exact H; simpl.
  assert (Hd : Np.map2 Rminus Y y <> []) by now apply map2_nonempty.
  now rewrite abs_Fin, mean_Fin by now apply map_nonempty.
Qed.

Lemma map_Fin_finite (l : list num) :
  Forall (fun v => Num.isfinite v = true) l -> exists rs, l = map Fin rs.
Proof.
  induction 1 as [|v l Hv _ [rs ->]].
  - now exists [].
  - destruct v as [a| | |]; try discriminate. now exists (a :: rs).
Qed.




(** Nor do the metrics compare on infinite values: the difference of two
    equal infinities is NaN. *)
Example metrics_of_equal_infinities :
  RMSE [PInf] [PInf] = Ok NaN /\ MAE [PInf] [PInf] = Ok NaN.
Proof. split; reflexivity. Qed.

End ErrorMetrics.

(** ** MAPE *)

Section PercentageError.

Local Open Scope R_scope.

Lemma quotients_Fin (Y y : list R) :
  List.length Y = List.length y ->
  Forall (fun a => a <> 0) Y ->
  Np.map2 Num.div (map Fin (Np.map2 Rminus Y y)) (map Fin Y)
  = map Fin (Np.map2 (fun a b => (a - b) / a) Y y).
Proof.
  intros H HY; revert y H.
  induction HY as [|a Y Ha HY IH]; intros [|b y] H; simpl in *;
    try discriminate; auto.
  injection H as H.
  rewrite <- IH by exact H. f_equal.
  apply (div_Fin_nonzero (a - b) a Ha).
Qed.

Lemma abs_pct_errors_map (Y y : list R) :
  map Rabs (Np.map2 (fun a b => (a - b) / a) Y y) = abs_pct_errors Y y.
Proof.
  unfold abs_pct_errors; revert y.
  induction Y as [|a Y IH]; intros [|b y]; simpl; auto.
  now rewrite IH.
Qed.

(** On real sequences of one length with no zero observed, MAPE is 100
    times the mean of the absolute percentage errors. *)
Lemma MAPE_Fin (Y y : list R) :
  List.length Y = List.length y ->
  Forall (fun a => a <> 0) Y ->
  MAPE (map Fin Y) (map Fin y)
  = Ok (Num.mul (Fin 100) (Np.mean (map Fin (abs_pct_errors Y y)))).
Proof.
  intros H HY; unfold MAPE.
  rewrite subtract_Fin by exact H; simpl.
  unfold Np.divide.
  rewrite broadcast2_same_length
    by (rewrite !length_map; now apply map2_length).
  simpl. rewrite quotients_Fin by assumption.
  now rewrite abs_Fin, abs_pct_errors_map.
Qed.

Lemma MAPE_Fin_nonempty (Y y : list R) :
  List.length Y = List.length y ->
  Forall (fun a => a <> 0) Y ->
  Y <> [] ->
  MAPE (map Fin Y) (map Fin y) = Ok (Fin (mape_formula Y y)).
Proof.
  intros H HY Hne.
  rewrite MAPE_Fin by assumption.
  rewrite mean_Fin by (now apply map2_nonempty).
  reflexivity.
Qed.

(** Remark.  In real arithmetic MAPE does not change when both sequences
    are multiplied by one positive number.  The code computes each side
    with its own roundings, and the two results agree up to rounding only;
    rounding is not modelled here, and no statement is made on it. *)

End PercentageError.

(** ** A zero among the observed values *)

Section ZeroObserved.

Local Open Scope R_scope.
















End ZeroObserved.

(** ** MASE *)

(** C8.  Whatever the two arguments are, MASE returns NaN: it does not
    raise, and the value it returns is not a finite number. *)
Theorem MASE_always_nan (A B : Type) (Y : A) (y : B) :
  MASE Y y = Ok NaN /\ Num.isnan NaN = true /\ Num.isfinite NaN = false.
Proof. repeat split. Qed.

(** ** Alignment on labels *)

Section Alignment.

Lemma Z_mem_In (x : Z) (l : list Z) : Pd.Z_mem x l = true <-> In x l.
Proof.
  unfold Pd.Z_mem; rewrite existsb_exists; split.
  - intros (y & Hy & E). apply Z.eqb_eq in E. now subst.
  - intros H. exists x; split; auto. apply Z.eqb_refl.
Qed.

Lemma is_unique_NoDup (l : list Z) : Pd.is_unique l = true <-> NoDup l.
Proof.
  induction l as [|x l IH]; simpl.
  - split; auto. constructor.
  - rewrite andb_true_iff, negb_true_iff, IH. split.
    + intros [Hx Hl]; constructor; auto.
      rewrite <- Z_mem_In. now rewrite Hx.
    + intros H; inversion H as [|? ? Hx Hl]; subst; split; auto.
      destruct (Pd.Z_mem x l) eqn:E; auto.
      now apply Z_mem_In in E.
Qed.

Lemma get_loc_notin (x : Z) (l : list Z) : ~ In x l -> Pd.get_loc x l = None.
Proof.
  induction l as [|y l IH]; simpl; auto.
  intros H. destruct (Z.eqb_spec x y) as [->|Hne].
  - exfalso; apply H; now left.
  - rewrite IH; auto.
Qed.

Lemma take_app (old : list Z) (col : list num) (a b : list Z) :
  Pd.take old col (a ++ b) = Pd.take old col a ++ Pd.take old col b.
Proof. unfold Pd.take; apply map_app. Qed.

Lemma take_missing (old : list Z) (col : list num) (target : list Z) :
  (forall x, In x target -> ~ In x old) ->
  Pd.take old col target = missing (List.length target).
Proof.
  unfold Pd.take, missing.
  induction target as [|x target IH]; intros H; simpl; auto.
  rewrite get_loc_notin by (apply H; now left).
  f_equal. apply IH. intros y Hy; apply H; now right.
Qed.

Lemma take_cons_notin (y : Z) (old : list Z) (c : num) (col : list num)
    (target : list Z) :
  ~ In y target ->
  Pd.take (y :: old) (c :: col) target = Pd.take old col target.
Proof.
  unfold Pd.take. intros H. apply map_ext_in. intros x Hx; simpl.
  destruct (Z.eqb_spec x y) as [->|Hne]; [contradiction|].
  now destruct (Pd.get_loc x old).
Qed.

(** Looking a column up at the labels of its own table gives the column
    back, when the labels are unique. *)
Lemma take_self (idx : list Z) (col : list num) :
  NoDup idx ->
  List.length col = List.length idx ->
  Pd.take idx col idx = col.
Proof.
  intros Hnd; revert col.
  induction Hnd as [|x idx Hx Hnd IH]; intros [|c col] H; simpl in *;
    try discriminate; auto.
  injection H as H.
  change (Pd.take (x :: idx) (c :: col) (x :: idx))
    with ((match Pd.get_loc x (x :: idx) with
           | Some i => nth i (c :: col) NaN
           | None => NaN
           end) :: Pd.take (x :: idx) (c :: col) idx).
  simpl. rewrite Z.eqb_refl.
  now rewrite take_cons_notin, IH.
Qed.

End Alignment.

(** ** [compute] *)

Section Compute.

Lemma str_mem_In (x : string) (l : list string) :
  Pd.str_mem x l = true <-> In x l.
Proof.
  unfold Pd.str_mem; rewrite existsb_exists; split.
  - intros (y & Hy & E). apply String.eqb_eq in E. now subst.
  - intros H. exists x; split; auto. apply String.eqb_refl.
Qed.

Lemma str_mem_false (x : string) (l : list string) :
  Pd.str_mem x l = false <-> ~ In x l.
Proof.
  rewrite <- str_mem_In. destruct (Pd.str_mem x l); split; congruence.
Qed.

Lemma fit_column_fits (n : nat) (col : list num) :
  List.length col = n -> Pd.fit_column n col = Ok col.
Proof.
  intros H; unfold Pd.fit_column. now rewrite H, Nat.eqb_refl.
Qed.

Lemma fit_columns_fits (n : nat) (data : list (string * list num)) :
  Forall (fun c => List.length (snd c) = n) data ->
  Pd.fit_columns n data = Ok data.
Proof.
  induction 1 as [|[name col] data Hc _ IH]; simpl; auto.
  rewrite fit_column_fits by exact Hc.
  now rewrite bind_Ok, IH.
Qed.

Lemma make_frame_fits (data : list (string * list num)) (df : DataFrame) :
  Forall (fun c => List.length (snd c) = List.length (index df)) data ->
  Pd.make_frame data df
  = Ok {| index := index df; freq := freq df; columns := data |}.
Proof.
  intros H; unfold Pd.make_frame.
  now rewrite (fit_columns_fits _ _ H).
Qed.

(** Dropping the names of [new] that the table has leaves the columns whose
    name [new] does not have. *)
Lemma drop_colliding (df : DataFrame) (new : list string) :
  let dropcols := filter (fun col => Pd.str_mem col (column_names df)) new in
  Pd.drop df dropcols
  = Ok {| index := index df; freq := freq df;
          columns :=
            filter (fun c => negb (Pd.str_mem (fst c) new)) (columns df) |}.
Proof.
  intros dropcols; unfold Pd.drop.
  replace (forallb _ dropcols) with true.
  - do 2 f_equal. apply filter_ext_in. intros c Hc. f_equal.
    assert (Hin : In (fst c) (column_names df))
      by (unfold column_names; now apply in_map).
    destruct (Pd.str_mem (fst c) new) eqn:E.
    + apply str_mem_In. apply filter_In; split.
      * now apply str_mem_In.
      * now apply str_mem_In.
    + apply str_mem_false. intros H. apply filter_In in H.
      destruct H as [H _]. apply str_mem_In in H. congruence.
  - symmetry; apply forallb_forall. intros n Hn.
    apply filter_In in Hn. tauto.
Qed.

Lemma no_collision_keeps_all (df : DataFrame) (new : list string) :
  filter (fun col => Pd.str_mem col (column_names df)) new = [] ->
  filter (fun c => negb (Pd.str_mem (fst c) new)) (columns df) = columns df.
Proof.
  intros H. apply forallb_filter_id. apply forallb_forall. intros c Hc.
  apply negb_true_iff, str_mem_false. intros Hin.
  assert (Hd : In (fst c)
                 (filter (fun col => Pd.str_mem col (column_names df)) new)).
  { apply filter_In; split; auto. apply str_mem_In.
    unfold column_names; now apply in_map. }
  rewrite H in Hd; contradiction.
Qed.

Lemma join_fresh (left right : DataFrame) :
  (forall n, In n (column_names left) -> ~ In n (column_names right)) ->
  index right = index left ->
  NoDup (index left) ->
  well_formed right ->
  Pd.join left right
  = Ok {| index := index left; freq := freq left;
          columns := columns left ++ columns right |}.
Proof.
  intros Hfresh Hidx Hnd Hwf; unfold Pd.join.
  replace (existsb _ (column_names left)) with false.
  - do 3 f_equal. rewrite <- (map_id (columns right)) at 2.
    apply map_ext_in. intros [n col] Hc; simpl. f_equal.
    rewrite Hidx. apply take_self; auto.
    unfold well_formed in Hwf; rewrite Forall_forall in Hwf.
    rewrite <- Hidx. exact (Hwf _ Hc).
  - symmetry. apply not_true_is_false. intros H.
    apply existsb_exists in H. destruct H as (n & Hn & Hm).
    apply str_mem_In in Hm. exact (Hfresh n Hn Hm).
Qed.

(** The table [compute] returns, written out. *)
Lemma compute_columns (df : DataFrame)
    (f : DataFrame -> list (string * list num)) :
  Pd.is_unique (index df) = true ->
  Forall (fun c => List.length (snd c) = List.length (index df)) (f df) ->
  compute df f
  = Ok {| index := index df; freq := freq df;
          columns :=
            filter (fun c => negb (Pd.str_mem (fst c) (map fst (f df))))
                   (columns df)
            ++ f df |}.
Proof.
  intros Hu Hfit. apply is_unique_NoDup in Hu.
  unfold compute. rewrite make_frame_fits by exact Hfit. simpl.
  change (column_names
            {| index := index df; freq := freq df; columns := f df |})
    with (map fst (f df)).
  set (new := map fst (f df)).
  set (kept := filter (fun c => negb (Pd.str_mem (fst c) new)) (columns df)).
  assert (Hdrop :
    match filter (fun col => Pd.str_mem col (column_names df)) new with
    | [] => Ok df
    | _ :: _ =>
        Pd.drop df (filter (fun col => Pd.str_mem col (column_names df)) new)
    end = Ok {| index := index df; freq := freq df; columns := kept |}).
  { destruct (filter _ new) eqn:E.
    - unfold kept. rewrite no_collision_keeps_all by exact E.
      now destruct df.
    - rewrite <- E. apply drop_colliding. }
  rewrite Hdrop; simpl.
  rewrite join_fresh; simpl; auto.
  intros n Hn Hn'. unfold column_names in Hn, Hn'; simpl in *.
  apply in_map_iff in Hn. destruct Hn as (c & <- & Hc).
  apply filter_In in Hc. destruct Hc as [_ Hc].
  apply negb_true_iff, str_mem_false in Hc. contradiction.
Qed.

(** C9.  On a table with unique labels, with new columns that fit its
    index, [compute] returns the table in which the columns of [f df] stand
    for every column of [df] of a colliding name, and every other column of
    [df] is present with its values. *)
Theorem compute_replaces_colliding_keeps_others (df : DataFrame)
    (f : DataFrame -> list (string * list num)) :
  Pd.is_unique (index df) = true ->
  Forall (fun c => List.length (snd c) = List.length (index df)) (f df) ->
  exists r,
    compute df f = Ok r /\
    index r = index df /\
    (forall name vals,
        In (name, vals) (columns df) ->
        ~ In name (map fst (f df)) ->
        In (name, vals) (columns r)) /\
    (forall name vals,
        In name (map fst (f df)) ->
        (In (name, vals) (columns r) <-> In (name, vals) (f df))).
Proof.
  intros Hu Hfit. eexists; split; [now apply compute_columns|].
  simpl. split; [reflexivity|]. split.
  - intros name vals Hin Hnew. apply in_or_app; left.
    apply filter_In; split; auto.
    now apply negb_true_iff, str_mem_false.
  - intros name vals Hnew; split.
    + intros H. apply in_app_or in H. destruct H as [H|H]; auto.
      apply filter_In in H. destruct H as [_ H].
      apply negb_true_iff, str_mem_false in H. contradiction.
    + intros H. apply in_or_app; now right.
Qed.

End Compute.

Lemma compute_replaces_colliding_keeps_others_witness :
  exists r,
    compute sample_table sample_columns = Ok r /\
    index r = index sample_table /\
    (forall name vals,
        In (name, vals) (columns sample_table) ->
        ~ In name (map fst (sample_columns sample_table)) ->
        In (name, vals) (columns r)) /\
    (forall name vals,
        In name (map fst (sample_columns sample_table)) ->
        (In (name, vals) (columns r)
         <-> In (name, vals) (sample_columns sample_table))).
Proof.
  apply compute_replaces_colliding_keeps_others.
  - reflexivity.
  - repeat constructor.
Defined.

Example compute_sample :
  compute sample_table sample_columns
  = Ok {| index := [10; 20; 30];
          freq := Some (Tick 10);
          columns := [("a"%string, [Fin 1; Fin 2; Fin 3]);
                      ("b"%string, [Fin 0; Fin 0; Fin 0]);
                      ("c"%string, [Fin 7; Fin 8; Fin 9])] |}.
Proof. reflexivity. Qed.

(** ** Regular indexes *)

Section RegularIndex.

Variable off : DateOffset.
Hypothesis off_lawful : Lawful off.

Lemma last_cons {A : Type} (x d : A) (l : list A) :
  last (x :: l) d = last l x.
Proof.
  revert x d; induction l as [|y l IH]; intros x d; auto.
  change (last (x :: y :: l) d) with (last (y :: l) d).
  now rewrite !IH.
Qed.

Lemma last_app_cons {A : Type} (l1 l2 : list A) (x d : A) :
  last (l1 ++ x :: l2) d = last l2 x.
Proof.
  revert d; induction l1 as [|y l1 IH]; intros d; simpl app.
  - apply last_cons.
  - rewrite last_cons. apply IH.
Qed.

Lemma conforms_cons (t : Z) (l : list Z) :
  conforms off (t :: l) = true ->
  onOffset off t = true /\ conforms off l = true /\
  match l with [] => True | u :: _ => u = next off t end.
Proof.
  simpl. rewrite !andb_true_iff. intros [[H1 H2] H3].
  repeat split; auto. destruct l; auto. now apply Z.eqb_eq.
Qed.

Lemma conforms_intro (t : Z) (l : list Z) :
  onOffset off t = true -> conforms off l = true ->
  match l with [] => True | u :: _ => u = next off t end ->
  conforms off (t :: l) = true.
Proof.
  intros H1 H2 H3. simpl. rewrite H1, H2.
  destruct l; auto. subst. now rewrite Z.eqb_refl.
Qed.

Lemma conforms_on (l : list Z) :
  conforms off l = true -> Forall (fun u => onOffset off u = true) l.
Proof.
  induction l as [|t l IH]; intros H; constructor;
    apply conforms_cons in H; tauto.
Qed.

Lemma conforms_lt (t : Z) (l : list Z) :
  conforms off (t :: l) = true -> Forall (fun u => t < u) l.
Proof.
  revert t; induction l as [|u l IH]; intros t H; constructor;
    apply conforms_cons in H; destruct H as (Ht & Hl & ->).
  - now apply next_gt.
  - apply IH in Hl. eapply Forall_impl; [|exact Hl].
    intros v Hv; simpl in Hv.
    pose proof (next_gt off off_lawful t Ht). lia.
Qed.

Lemma conforms_NoDup (l : list Z) : conforms off l = true -> NoDup l.
Proof.
  induction l as [|t l IH]; intros H; constructor.
  - apply conforms_lt in H. rewrite Forall_forall in H.
    intros Hin. apply H in Hin. lia.
  - apply conforms_cons in H. tauto.
Qed.

Lemma conforms_le_last (t : Z) (l : list Z) :
  conforms off (t :: l) = true -> t <= last l t.
Proof.
  revert t; induction l as [|u l IH]; intros t H; [simpl; lia|].
  apply conforms_cons in H. destruct H as (Ht & Hl & ->).
  rewrite last_cons.
  apply IH in Hl. pose proof (next_gt off off_lawful t Ht). lia.
Qed.

Lemma conforms_last_on (t : Z) (l : list Z) :
  conforms off (t :: l) = true -> onOffset off (last l t) = true.
Proof.
  revert t; induction l as [|u l IH]; intros t H;
    apply conforms_cons in H; destruct H as (Ht & Hl & Hu); auto.
  rewrite last_cons. now apply IH.
Qed.

Lemma conforms_min (t : Z) (l : list Z) :
  conforms off (t :: l) = true -> fold_left Z.min l t = t.
Proof.
  intros H. apply conforms_lt in H.
  induction H as [|u l Hu Hl IH]; simpl; auto.
  now rewrite Z.min_l by lia.
Qed.

Lemma conforms_max (t : Z) (l : list Z) :
  conforms off (t :: l) = true -> fold_left Z.max l t = last l t.
Proof.
  revert t; induction l as [|u l IH]; intros t H; auto.
  pose proof (conforms_lt _ _ H) as Hlt.
  apply conforms_cons in H. destruct H as (Ht & Hl & ->).
  inversion Hlt; subst. simpl fold_left.
  rewrite Z.max_r by lia. rewrite last_cons. now apply IH.
Qed.

(** Rounds beyond [stop - cur + 1] are never used: whatever the frequency,
    two runs of the loop with at least that many give the same. *)
Lemma generate_loop_enough_fuel (fuel fuel' : nat) (cur stop : Z) :
  (Z.to_nat (stop - cur + 1) <= fuel)%nat ->
  (Z.to_nat (stop - cur + 1) <= fuel')%nat ->
  Pd.generate_loop off fuel cur stop = Pd.generate_loop off fuel' cur stop.
Proof.
  revert fuel' cur; induction fuel as [|fuel IH];
    intros [|fuel'] cur H H'; simpl; auto.
  - destruct (Z.leb_spec cur stop); [lia|reflexivity].
  - destruct (Z.leb_spec cur stop); [lia|reflexivity].
  - destruct (Z.leb_spec cur stop); auto.
    destruct (Z.eqb_spec cur stop); auto.
    destruct (Z.leb_spec (next off cur) cur); auto.
    rewrite (IH fuel' (next off cur)) by lia. reflexivity.
Qed.

(** The loop of the range generator walks a conforming index to its end
    when it has the rounds [generate_range] gives it. *)
Lemma generate_loop_conforms (fuel : nat) (t : Z) (l : list Z) :
  conforms off (t :: l) = true ->
  (Z.to_nat (last l t - t + 1) <= fuel)%nat ->
  Pd.generate_loop off fuel t (last l t) = Ok (t :: l).
Proof.
  revert fuel t; induction l as [|u l IH]; intros fuel t H Hfuel.
  - simpl in *. destruct fuel as [|fuel]; [lia|].
    simpl. now rewrite Z.leb_refl, Z.eqb_refl.
  - pose proof (conforms_le_last _ _ H) as Hle.
    pose proof (conforms_lt _ _ H) as Hlt.
    apply conforms_cons in H. destruct H as (Ht & Hl & ->).
    inversion Hlt as [|? ? Hu _]; subst.
    pose proof (conforms_le_last _ _ Hl) as Hle'.
    rewrite last_cons in *.
    destruct fuel as [|fuel]; [lia|].
    simpl.
    destruct (Z.leb_spec t (last l (next off t))); [|lia].
    destruct (Z.eqb_spec t (last l (next off t))); [lia|].
    destruct (Z.leb_spec (next off t) t); [lia|].
    rewrite IH; auto. lia.
Qed.

Lemma generate_range_conforms (t : Z) (l : list Z) :
  conforms off (t :: l) = true ->
  Pd.generate_range off t (last l t) = Ok (t :: l).
Proof.
  intros H. unfold Pd.generate_range.
  rewrite (conforms_last_on _ _ H).
  pose proof (conforms_cons _ _ H) as (Ht & _ & _). rewrite Ht.
  pose proof (conforms_le_last _ _ H) as Hle.
  destruct (Z.ltb_spec (last l t) t); [lia|].
  now apply generate_loop_conforms.
Qed.

Lemma date_range_conforms (t : Z) (l : list Z) :
  conforms off (t :: l) = true ->
  Pd.date_range (T t) (T (last l t)) (Some off) = Ok (t :: l, off).
Proof.
  intros H. unfold Pd.date_range.
  now rewrite generate_range_conforms.
Qed.

End RegularIndex.

(** ** Steps beyond either end of a regular index *)

Section Steps.

Variable off : DateOffset.
Hypothesis off_lawful : Lawful off.

Lemma steps_after_length (t : Z) (k : nat) :
  List.length (steps_after off t k) = k.
Proof. revert t; induction k; intros t; simpl; auto. Qed.

Lemma steps_before_length (t : Z) (k : nat) :
  List.length (steps_before off t k) = k.
Proof.
  revert t; induction k; intros t; simpl; auto.
  rewrite length_app, IHk; simpl; lia.
Qed.

Lemma last_steps_after (t : Z) (k : nat) :
  last (steps_after off t k) t = Nat.iter k (next off) t.
Proof.
  revert t; induction k as [|k IH]; intros t; auto.
  change (steps_after off t (S k))
    with (next off t :: steps_after off (next off t) k).
  now rewrite last_cons, IH, Nat.iter_succ_r.
Qed.

Lemma conforms_steps_after (t : Z) (k : nat) :
  onOffset off t = true ->
  conforms off (t :: steps_after off t k) = true.
Proof.
  revert t; induction k as [|k IH]; intros t Ht.
  - simpl. now rewrite Ht.
  - apply conforms_intro; simpl; auto.
    apply IH. now apply next_on.
Qed.

(** A conforming index followed by the next [k] steps conforms. *)
Lemma conforms_extend_after (t : Z) (l : list Z) (k : nat) :
  conforms off (t :: l) = true ->
  conforms off (t :: l ++ steps_after off (last l t) k) = true.
Proof.
  revert t; induction l as [|u l IH]; intros t H.
  - apply conforms_steps_after. apply conforms_cons in H; tauto.
  - apply conforms_cons in H. destruct H as (Ht & Hl & ->).
    rewrite last_cons.
    apply conforms_intro; [exact Ht | now apply IH | reflexivity].
Qed.

Lemma last_extend_after (t : Z) (l : list Z) (k : nat) :
  last (l ++ steps_after off (last l t) k) t
  = Nat.iter k (next off) (last l t).
Proof.
  rewrite <- last_steps_after.
  destruct (steps_after off (last l t) k) as [|s ss] eqn:E.
  - now rewrite app_nil_r.
  - rewrite last_app_cons. symmetry; apply last_cons.
Qed.

(** The [k] steps before a conforming index, followed by the index,
    conform, and start [k] steps before it. *)
Lemma conforms_extend_before (t : Z) (l : list Z) (k : nat) :
  conforms off (t :: l) = true ->
  exists l',
    steps_before off t k ++ t :: l = Nat.iter k (prev off) t :: l' /\
    conforms off (Nat.iter k (prev off) t :: l') = true /\
    last l' (Nat.iter k (prev off) t) = last l t.
Proof.
  revert t l; induction k as [|k IH]; intros t l H.
  - exists l; simpl; auto.
  - pose proof (conforms_cons off _ _ H) as (Ht & _ & _).
    destruct (IH (prev off t) (t :: l)) as (l' & E & Hc & Hl).
    { apply conforms_intro; auto.
      - now apply prev_on.
      - symmetry; now apply next_prev. }
    exists l'. rewrite Nat.iter_succ_r. simpl steps_before.
    rewrite <- app_assoc; simpl app. rewrite E.
    repeat split; auto. now rewrite Hl, last_cons.
Qed.

Lemma steps_after_later (t : Z) (k : nat) :
  onOffset off t = true ->
  Forall (fun u => t < u) (steps_after off t k).
Proof.
  intros Ht. exact (conforms_lt off off_lawful _ _
                      (conforms_steps_after t k Ht)).
Qed.

End Steps.

(** ** Reindexing over a wider index *)

Section Reindex.

Lemma index_equals_true (a b : list Z) :
  Pd.index_equals a b = true -> a = b.
Proof.
  unfold Pd.index_equals. now destruct (list_eq_dec Z.eq_dec a b).
Qed.

(** Reindexing over the labels of the table with new labels before and
    after them keeps every column and pads it with missing values. *)
Lemma reindex_padded (df : DataFrame) (off : DateOffset)
    (pre post : list Z) :
  NoDup (index df) ->
  well_formed df ->
  (forall x, In x pre -> ~ In x (index df)) ->
  (forall x, In x post -> ~ In x (index df)) ->
  Pd.reindex df (pre ++ index df ++ post, off)
  = Ok {| index := pre ++ index df ++ post;
          freq := Some off;
          columns :=
            map (fun c => (fst c,
                           missing (List.length pre) ++ snd c
                           ++ missing (List.length post)))
                (columns df) |}.
Proof.
  intros Hnd Hwf Hpre Hpost. unfold Pd.reindex.
  destruct (Pd.index_equals (index df) (pre ++ index df ++ post)) eqn:E.
  - apply index_equals_true in E.
    assert (Hlen : List.length (index df)
                   = List.length (pre ++ index df ++ post))
      by now rewrite <- E.
    rewrite !length_app in Hlen.
    assert (pre = []) as -> by (apply length_zero_iff_nil; lia).
    assert (post = []) as -> by (apply length_zero_iff_nil; lia).
    do 2 f_equal. rewrite <- (map_id (columns df)) at 1.
    apply map_ext. intros [n col]; simpl. now rewrite app_nil_r.
  - pose proof (proj2 (is_unique_NoDup (index df)) Hnd) as Hu. rewrite Hu.
    do 2 f_equal. apply map_ext_in. intros [n col] Hc; simpl. f_equal.
    rewrite !take_app.
    rewrite (take_missing _ _ pre Hpre), (take_missing _ _ post Hpost).
    rewrite take_self; auto.
    unfold well_formed in Hwf; rewrite Forall_forall in Hwf.
    exact (Hwf _ Hc).
Qed.

End Reindex.

(** ** The bounds [extend_timeseries] computes *)

Section Bounds.

Variable df : DataFrame.
Variable off : DateOffset.
Hypothesis df_freq : freq df = Some off.

Lemma apply_n_forward (n : Z) (t : Z) :
  0 < n -> apply_n off n t = Nat.iter (Z.to_nat n) (next off) t.
Proof.
  intros H; unfold apply_n. destruct (Z.leb_spec 0 n); auto; lia.
Qed.

Lemma apply_n_backward (n : Z) (t : Z) :
  n < 0 -> apply_n off n t = Nat.iter (Z.to_nat (- n)) (prev off) t.
Proof.
  intros H; unfold apply_n. destruct (Z.leb_spec 0 n); auto; lia.
Qed.

(** A time stamp moved by an integer number of steps: the time stamp that
    many steps away where the move fits, an exception where it does not. *)
Lemma add_steps_forward (t : timestamp) (n : Z) :
  0 < n ->
  add_steps t n (Some off)
  = if reachable t (shift_forward off (Z.to_nat n) t)
    then Ok (shift_forward off (Z.to_nat n) t)
    else Raise OutOfBoundsDatetime.
Proof.
  intros Hn. destruct t as [z|]; simpl; [|reflexivity].
  unfold checked_shift. now rewrite apply_n_forward.
Qed.

Lemma add_steps_backward (t : timestamp) (n : Z) :
  n < 0 ->
  add_steps t n (Some off)
  = if reachable t (shift_backward off (Z.to_nat (- n)) t)
    then Ok (shift_backward off (Z.to_nat (- n)) t)
    else Raise OutOfBoundsDatetime.
Proof.
  intros Hn. destruct t as [z|]; simpl; [|reflexivity].
  unfold checked_shift. now rewrite apply_n_backward.
Qed.

(** The bounds for an integer step, whatever bounds were given. *)
Lemma extend_bounds_forward (tmax tmin : option timestamp) (n : Z) :
  0 < n ->
  extend_bounds df tmax tmin (Some (StepInt n))
  = if reachable (given_or tmax (index_max df))
         (shift_forward off (Z.to_nat n) (given_or tmax (index_max df)))
    then Ok (given_or tmin (index_min df),
             shift_forward off (Z.to_nat n) (given_or tmax (index_max df)))
    else Raise OutOfBoundsDatetime.
Proof.
  intros Hn. pose proof df_freq as Hf.
  assert (E : (0 <? n) = true) by now apply Z.ltb_lt.
  unfold extend_bounds. rewrite Hf.
  destruct tmax as [tmax|], tmin as [tmin|]; cbn beta iota zeta; rewrite E;
    rewrite add_steps_forward by exact Hn; unfold given_or;
    match goal with |- context [reachable ?a ?b] =>
      destruct (reachable a b) end; reflexivity.
Qed.

Lemma extend_bounds_backward (tmax tmin : option timestamp) (n : Z) :
  n < 0 ->
  extend_bounds df tmax tmin (Some (StepInt n))
  = if reachable (given_or tmin (index_min df))
         (shift_backward off (Z.to_nat (- n)) (given_or tmin (index_min df)))
    then Ok (shift_backward off (Z.to_nat (- n))
               (given_or tmin (index_min df)),
             given_or tmax (index_max df))
    else Raise OutOfBoundsDatetime.
Proof.
  intros Hn. pose proof df_freq as Hf.
  assert (E : (0 <? n) = false) by (apply Z.ltb_ge; lia).
  assert (E' : (n <? 0) = true) by now apply Z.ltb_lt.
  unfold extend_bounds. rewrite Hf.
  destruct tmax as [tmax|], tmin as [tmin|]; cbn beta iota zeta;
    rewrite E, E';
    rewrite add_steps_backward by exact Hn; unfold given_or;
    match goal with |- context [reachable ?a ?b] =>
      destruct (reachable a b) end; reflexivity.
Qed.

Lemma extend_bounds_zero (tmax tmin : option timestamp) :
  extend_bounds df tmax tmin (Some (StepInt 0))
  = Ok (given_or tmin (index_min df), given_or tmax (index_max df)).
Proof.
  unfold extend_bounds, given_or.
  destruct tmax, tmin; reflexivity.
Qed.

(** A duration that is not positive is taken off the lower bound; the
    lower bound of a negative duration is therefore later by its size. *)
Lemma extend_bounds_duration (tmax tmin : option timestamp) (d : Z) :
  extend_bounds df tmax tmin (Some (StepDelta d))
  = if 0 <? d
    then tmax' <- add_delta (given_or tmax (index_max df)) d ;;
         Ok (given_or tmin (index_min df), tmax')
    else tmin' <- sub_delta (given_or tmin (index_min df)) d ;;
         Ok (tmin', given_or tmax (index_max df)).
Proof.
  unfold extend_bounds, given_or.
  destruct tmax, tmin; reflexivity.
Qed.

End Bounds.

(** ** [extend_timeseries] on a regular table *)

Section Extend.

Variable df : DataFrame.
Variable off : DateOffset.
Hypothesis df_regular : regular df off.

Lemma regular_ends :
  exists t l,
    index df = t :: l /\
    conforms off (t :: l) = true /\
    index_min df = T t /\
    index_max df = T (last l t).
Proof.
  destruct df_regular as [Hf Hlaw Hc Hne Hwf].
  unfold index_min, index_max.
  destruct (index df) as [|t l]; [congruence|].
  exists t, l. repeat split; auto.
  - now rewrite (conforms_min off Hlaw t l Hc).
  - now rewrite (conforms_max off Hlaw t l Hc).
Qed.

Lemma In_le_last (t : Z) (l : list Z) (x : Z) :
  conforms off (t :: l) = true -> In x (t :: l) -> x <= last l t.
Proof.
  destruct df_regular as [_ Hlaw _ _ _].
  revert t; induction l as [|u l IH]; intros t Hc Hin.
  - destruct Hin as [<- | []]. simpl; lia.
  - pose proof (conforms_le_last off Hlaw _ _ Hc) as Hle.
    rewrite last_cons in *. destruct Hin as [<- | Hin]; auto.
    apply conforms_cons in Hc. destruct Hc as (_ & Hc & _).
    now apply IH.
Qed.

(** With a positive integer step and no bounds given, the table comes back
    with the next [dt] steps of its frequency appended, empty. *)
Lemma extend_timeseries_forward (n : Z) (tmax : Z) :
  0 < n ->
  index_max df = T tmax ->
  can_shift tmax (Nat.iter (Z.to_nat n) (next off) tmax) = true ->
  extend_timeseries df None None (Some (StepInt n))
  = Ok {| index := index df ++ steps_after off tmax (Z.to_nat n);
          freq := Some off;
          columns :=
            map (fun c => (fst c, snd c ++ missing (Z.to_nat n)))
                (columns df) |}.
Proof.
  intros Hn Hmax Hfit.
  destruct regular_ends as (t & l & Hidx & Hc & Hmin & Hmax').
  pose proof df_regular as [Hf Hlaw _ _ Hwf].
  rewrite Hmax in Hmax'. injection Hmax' as ->.
  unfold extend_timeseries.
  rewrite (extend_bounds_forward df off Hf) by exact Hn.
  unfold given_or. rewrite Hmin, Hmax.
  unfold shift_forward, reachable. rewrite Hfit.
  rewrite bind_Ok, Hf. unfold fst, snd.
  rewrite <- (last_extend_after off t l (Z.to_nat n)).
  rewrite (date_range_conforms off Hlaw)
    by now apply conforms_extend_after.
  rewrite bind_Ok.
  change (t :: l ++ steps_after off (last l t) (Z.to_nat n))
    with ([] ++ (t :: l) ++ steps_after off (last l t) (Z.to_nat n)).
  rewrite <- Hidx. rewrite reindex_padded.
  - rewrite steps_after_length. reflexivity.
  - rewrite Hidx. now apply (conforms_NoDup off Hlaw).
  - exact Hwf.
  - intros x [].
  - intros x Hx Hin. rewrite Hidx in Hin.
    pose proof (steps_after_later off Hlaw (last l t) (Z.to_nat n)
                  (conforms_last_on off t l Hc)) as Hlater.
    rewrite Forall_forall in Hlater. apply Hlater in Hx.
    pose proof (In_le_last t l x Hc Hin). lia.
Qed.

(** With a negative integer step and no bounds given, the table comes back
    with the [-dt] steps before its first label put in front, empty. *)
Lemma extend_timeseries_backward (n : Z) (tmin : Z) :
  n < 0 ->
  index_min df = T tmin ->
  can_shift tmin (Nat.iter (Z.to_nat (- n)) (prev off) tmin) = true ->
  extend_timeseries df None None (Some (StepInt n))
  = Ok {| index := steps_before off tmin (Z.to_nat (- n)) ++ index df;
          freq := Some off;
          columns :=
            map (fun c => (fst c, missing (Z.to_nat (- n)) ++ snd c))
                (columns df) |}.
Proof.
  intros Hn Hmin Hfit.
  destruct regular_ends as (t & l & Hidx & Hc & Hmin' & Hmax).
  pose proof df_regular as [Hf Hlaw _ _ Hwf].
  rewrite Hmin in Hmin'. injection Hmin' as ->.
  unfold extend_timeseries.
  rewrite (extend_bounds_backward df off Hf) by exact Hn.
  unfold given_or. rewrite Hmin, Hmax.
  unfold shift_backward, reachable. rewrite Hfit.
  rewrite bind_Ok, Hf. unfold fst, snd.
  destruct (conforms_extend_before off Hlaw t l (Z.to_nat (- n)) Hc)
    as (l' & E & Hc' & Hl).
  rewrite <- Hl.
  rewrite (date_range_conforms off Hlaw) by exact Hc'.
  rewrite bind_Ok, <- E, <- Hidx.
  replace (steps_before off t (Z.to_nat (- n)) ++ index df)
    with (steps_before off t (Z.to_nat (- n)) ++ index df ++ [])
    by now rewrite app_nil_r.
  rewrite reindex_padded.
  - rewrite steps_before_length, !app_nil_r. do 2 f_equal.
    apply map_ext. intros c. simpl. now rewrite app_nil_r.
  - rewrite Hidx. now apply (conforms_NoDup off Hlaw).
  - exact Hwf.
  - intros x Hx Hin.
    assert (Hnd : NoDup (steps_before off t (Z.to_nat (- n)) ++ t :: l)).
    { rewrite E. now apply (conforms_NoDup off Hlaw). }
    rewrite Hidx in Hin.
    apply in_split in Hx. destruct Hx as (l1 & l2 & Hx).
    rewrite Hx, <- app_assoc in Hnd. simpl in Hnd.
    apply NoDup_remove_2 in Hnd. apply Hnd.
    apply in_or_app; right. apply in_or_app; now right.
  - intros x [].
Qed.

(** With the integer step 0 and no bounds given, the table comes back as
    it is. *)
Lemma extend_timeseries_zero :
  extend_timeseries df None None (Some (StepInt 0))
  = Ok {| index := index df; freq := Some off; columns := columns df |}.
Proof.
  destruct regular_ends as (t & l & Hidx & Hc & Hmin & Hmax).
  pose proof df_regular as [Hf Hlaw _ _ Hwf].
  unfold extend_timeseries.
  rewrite extend_bounds_zero, bind_Ok, Hf.
  unfold given_or, fst, snd. rewrite Hmin, Hmax.
  rewrite (date_range_conforms off Hlaw) by exact Hc.
  rewrite bind_Ok. unfold Pd.reindex.
  rewrite Hidx. unfold Pd.index_equals.
  now destruct (list_eq_dec Z.eq_dec (t :: l) (t :: l)).
Qed.

End Extend.

(** ** The claims on [extend_timeseries] *)

Lemma Tick_lawful (step : positive) : Lawful (Tick step).
Proof. constructor; intros t _; simpl; lia. Qed.

Lemma weekday_range (t : Z) : 0 <= weekday t < 7.
Proof. unfold weekday. apply Z.mod_pos_bound. lia. Qed.

Lemma weekday_shift (t k : Z) :
  weekday (t + nanos_per_day * k) = (weekday t + k) mod 7.
Proof.
  unfold weekday.
  rewrite (Z.mul_comm nanos_per_day k), Z.div_add by discriminate.
  rewrite Zplus_mod_idemp_l. f_equal. lia.
Qed.

Lemma weekday_shift_back (t k : Z) :
  weekday (t - nanos_per_day * k) = (weekday t - k) mod 7.
Proof.
  replace (t - nanos_per_day * k) with (t + nanos_per_day * (- k)) by lia.
  now rewrite weekday_shift.
Qed.

Lemma BusinessDay_lawful : Lawful BusinessDay.
Proof.
  constructor; intros t H; cbn [onOffset next prev BusinessDay] in *;
    apply Z.ltb_lt in H;
    pose proof (weekday_range t) as Hr;
    assert (Hw : weekday t = 0 \/ weekday t = 1 \/ weekday t = 2 \/
                 weekday t = 3 \/ weekday t = 4) by lia;
    destruct Hw as [E|[E|[E|[E|E]]]];
    rewrite E; cbv beta iota;
    rewrite ?weekday_shift, ?weekday_shift_back, ?E;
    try reflexivity;
    cbn; unfold nanos_per_day; lia.
Qed.

Lemma sample_week_table_regular : regular sample_week_table BusinessDay.
Proof.
  constructor.
  - reflexivity.
  - apply BusinessDay_lawful.
  - reflexivity.
  - discriminate.
  - repeat constructor.
Qed.

Lemma sample_table_regular : regular sample_table (Tick 10).
Proof.
  constructor.
  - reflexivity.
  - apply Tick_lawful.
  - reflexivity.
  - discriminate.
  - repeat constructor.
Qed.

(** C2, as amended.  Called with no bounds and no step on a table whose
    index is regular at a frequency that is set on it, and that has room
    for one more row after its last label (the label one step later is a
    time stamp, and not the last there is), [extend_timeseries] returns the
    table with one row more: the new label is one step of the frequency
    after the last one, the first label is the same, every column keeps its
    values and is missing in the new row. *)
Theorem extend_timeseries_default_adds_one_step
    (df : DataFrame) (off : DateOffset) (last_label : Z) :
  regular df off ->
  index_max df = T last_label ->
  room_after off last_label 1 = true ->
  adds_one_step df off.
Proof.
  intros Hreg Hlast Hroom.
  assert (Hfit : can_shift last_label (next off last_label) = true)
    by (apply andb_true_iff in Hroom; exact (proj1 Hroom)).
  destruct (regular_ends df off Hreg) as (t & l & Hidx & Hc & Hmin & Hmax).
  pose proof Hreg as [Hf Hlaw _ _ Hwf].
  rewrite Hlast in Hmax. injection Hmax as ->.
  exists t, (last l t). eexists.
  split; [exact Hmin|]. split; [exact Hlast|].
  split.
  { change (extend_timeseries df None None None)
      with (extend_timeseries df None None (Some (StepInt 1))).
    apply (extend_timeseries_forward df off Hreg 1 (last l t));
      [lia | exact Hlast | exact Hfit]. }
  simpl. repeat split.
  - apply next_gt; auto. now apply (conforms_last_on off t l).
  - unfold index_min; simpl. rewrite Hidx; simpl. f_equal.
    pose proof (conforms_extend_after off Hlaw t l 1 Hc) as Hc1.
    exact (conforms_min off Hlaw t _ Hc1).
Qed.

Lemma extend_timeseries_default_adds_one_step_witness :
  adds_one_step sample_table (Tick 10).
Proof.
  exact (extend_timeseries_default_adds_one_step
           sample_table (Tick 10) 30 sample_table_regular eq_refl eq_refl).
Defined.

Example extend_timeseries_default_sample :
  extend_timeseries sample_table None None None
  = Ok {| index := [10; 20; 30; 40];
          freq := Some (Tick 10);
          columns := [("a"%string, [Fin 1; Fin 2; Fin 3; NaN]);
                      ("b"%string, [Fin 4; Fin 5; Fin 6; NaN])] |}.
Proof. reflexivity. Qed.

(** At the business-day frequency the row added after a Friday is the
    Monday. *)
Example extend_timeseries_over_weekend :
  extend_timeseries sample_week_table None None (Some (StepInt 1))
  = Ok {| index := [0; 86400000000000; 345600000000000];
          freq := Some BusinessDay;
          columns := [("a"%string, [Fin 1; Fin 2; NaN])] |}.
Proof.
  exact (extend_timeseries_forward sample_week_table BusinessDay
           sample_week_table_regular 1 86400000000000
           eq_refl eq_refl eq_refl).
Qed.

(** C2, as stated, fails on a table whose frequency can be detected but is
    not set on its index: the default step is multiplied with the missing
    frequency, and the call raises. *)
Lemma extend_timeseries_default_raises_without_set_frequency :
  detectable sample_table_unset (Tick 10) /\
  extend_timeseries sample_table_unset None None None = Raise TypeError /\
  ~ adds_one_step sample_table_unset (Tick 10).
Proof.
  split; [|split].
  - constructor.
    + apply Tick_lawful.
    + reflexivity.
    + simpl; lia.
    + repeat constructor.
  - reflexivity.
  - intros (tmin & tmax & r & _ & _ & H & _). discriminate.
Qed.

(** Nor is a row added after the last time stamp there is: on a table that
    ends there, regular and with its frequency set, the call raises. *)
Example extend_timeseries_default_at_the_last_time_stamp :
  regular sample_table_last (Tick 10) /\
  index_max sample_table_last = T ts_max /\
  extend_timeseries sample_table_last None None None
  = Raise OutOfBoundsDatetime /\
  ~ adds_one_step sample_table_last (Tick 10).
Proof.
  split; [|split; [|split]].
  - constructor.
    + reflexivity.
    + apply Tick_lawful.
    + reflexivity.
    + discriminate.
    + repeat constructor.
  - reflexivity.
  - reflexivity.
  - intros (tmin & tmax & r & _ & _ & H & _). discriminate.
Qed.

(** C3, as amended.  On a table with a frequency set, a nonzero integer
    step counts steps of the frequency, as far as time stamps go.  When the
    bound can be moved that far (the time stamp it is moved to and the
    distance fit what pandas holds), a positive [dt] moves the upper bound
    [dt] steps forward and leaves the lower bound, and a negative [dt]
    moves the lower bound [-dt] steps backward and leaves the upper bound.
    With no bounds given, a regular index and room for the rows, the table
    comes back with that many empty rows after its last row, or before its
    first. *)
Theorem extend_timeseries_integer_step
    (df : DataFrame) (off : DateOffset) (n : Z) :
  freq df = Some off ->
  n <> 0 ->
  (0 < n ->
     (forall tmax tmin,
         reachable (given_or tmax (index_max df))
           (shift_forward off (Z.to_nat n) (given_or tmax (index_max df)))
         = true ->
         extend_bounds df tmax tmin (Some (StepInt n))
         = Ok (given_or tmin (index_min df),
               shift_forward off (Z.to_nat n)
                 (given_or tmax (index_max df)))) /\
     (regular df off ->
      forall tmax, index_max df = T tmax ->
        room_after off tmax (Z.to_nat n) = true ->
        extend_timeseries df None None (Some (StepInt n))
        = Ok {| index := index df ++ steps_after off tmax (Z.to_nat n);
                freq := Some off;
                columns :=
                  map (fun c => (fst c, snd c ++ missing (Z.to_nat n)))
                      (columns df) |})) /\
  (n < 0 ->
     (forall tmax tmin,
         reachable (given_or tmin (index_min df))
           (shift_backward off (Z.abs_nat n) (given_or tmin (index_min df)))
         = true ->
         extend_bounds df tmax tmin (Some (StepInt n))
         = Ok (shift_backward off (Z.abs_nat n)
                 (given_or tmin (index_min df)),
               given_or tmax (index_max df))) /\
     (regular df off ->
      forall tmin tmax, index_min df = T tmin -> index_max df = T tmax ->
        room_before off tmin (Z.abs_nat n) = true ->
        room_after off tmax 0 = true ->
        extend_timeseries df None None (Some (StepInt n))
        = Ok {| index := steps_before off tmin (Z.abs_nat n) ++ index df;
                freq := Some off;
                columns :=
                  map (fun c => (fst c, missing (Z.abs_nat n) ++ snd c))
                      (columns df) |})).
Proof.
  intros Hf Hn. split; intros Hsign; split.
  - intros tmax tmin Hfit.
    rewrite (extend_bounds_forward df off Hf) by exact Hsign.
    now rewrite Hfit.
  - intros Hreg tmax Hmax Hroom.
    apply andb_true_iff in Hroom. destruct Hroom as [Hfit _].
    now apply extend_timeseries_forward.
  - intros tmax tmin.
    replace (Z.abs_nat n) with (Z.to_nat (- n)) by lia.
    intros Hfit.
    rewrite (extend_bounds_backward df off Hf) by exact Hsign.
    now rewrite Hfit.
  - intros Hreg tmin tmax Hmin _.
    replace (Z.abs_nat n) with (Z.to_nat (- n)) by lia.
    intros Hfit _. now apply extend_timeseries_backward.
Qed.

Lemma extend_timeseries_integer_step_witness :
  extend_timeseries sample_table None None (Some (StepInt 2))
  = Ok {| index := [10; 20; 30; 40; 50];
          freq := Some (Tick 10);
          columns := [("a"%string, [Fin 1; Fin 2; Fin 3; NaN; NaN]);
                      ("b"%string, [Fin 4; Fin 5; Fin 6; NaN; NaN])] |}
  /\
  extend_timeseries sample_table None None (Some (StepInt (-2)))
  = Ok {| index := [-10; 0; 10; 20; 30];
          freq := Some (Tick 10);
          columns := [("a"%string, [NaN; NaN; Fin 1; Fin 2; Fin 3]);
                      ("b"%string, [NaN; NaN; Fin 4; Fin 5; Fin 6])] |}.
Proof.
  split.
  - refine (proj2 (proj1 (extend_timeseries_integer_step
                            sample_table (Tick 10) 2 eq_refl _) _)
                  sample_table_regular 30 eq_refl eq_refl);
      [discriminate | reflexivity].
  - refine (proj2 (proj2 (extend_timeseries_integer_step
                            sample_table (Tick 10) (-2) eq_refl _) _)
                  sample_table_regular 10 30 eq_refl eq_refl eq_refl eq_refl);
      [discriminate | reflexivity].
Defined.

(** C3, as stated, fails where the steps lead past the time stamps there
    are: a hundred thousand days after the first days of 2020, or one step
    after the last time stamp, the upper bound is not moved and no row is
    added; the call raises.  So it does two steps before the first time
    stamp. *)
Lemma extend_timeseries_integer_step_out_of_bounds :
  regular sample_daily_table Day /\
  extend_bounds sample_daily_table None None (Some (StepInt 100000))
  = Raise OutOfBoundsDatetime /\
  extend_timeseries sample_daily_table None None (Some (StepInt 100000))
  = Raise OutOfBoundsDatetime /\
  regular sample_table_last (Tick 10) /\
  extend_timeseries sample_table_last None None (Some (StepInt 1))
  = Raise OutOfBoundsDatetime /\
  regular sample_table_first (Tick 1000) /\
  extend_timeseries sample_table_first None None (Some (StepInt (-2)))
  = Raise OutOfBoundsDatetime.
Proof.
  assert (Hreg : forall df off,
            freq df = Some off -> Lawful off ->
            conforms off (index df) = true -> index df <> [] ->
            well_formed df -> regular df off)
    by (intros; now constructor).
  assert (Hr : forall df step,
            freq df = Some (Tick step) ->
            conforms (Tick step) (index df) = true -> index df <> [] ->
            well_formed df -> regular df (Tick step))
    by (intros; apply Hreg; auto; apply Tick_lawful).
  split; [|split; [|split; [|split; [|split; [|split]]]]].
  - apply Hr; [reflexivity | reflexivity | discriminate | repeat constructor].
  - vm_compute; reflexivity.
  - vm_compute; reflexivity.
  - apply Hr; [reflexivity | reflexivity | discriminate | repeat constructor].
  - reflexivity.
  - apply Hr; [reflexivity | reflexivity | discriminate | repeat constructor].
  - reflexivity.
Qed.

(** C10.  With the integer step 0 and no bounds given, on a table indexed
    regularly at a frequency: neither bound moves, and the table comes back
    with the index and the columns it had. *)
Theorem extend_timeseries_zero_step_adds_nothing
    (df : DataFrame) (off : DateOffset) :
  regular df off ->
  extend_bounds df None None (Some (StepInt 0))
  = Ok (index_min df, index_max df) /\
  exists r,
    extend_timeseries df None None (Some (StepInt 0)) = Ok r /\
    index r = index df /\
    columns r = columns df /\
    index_min r = index_min df /\
    index_max r = index_max df.
Proof.
  intros Hreg. split; [reflexivity|].
  eexists. split; [exact (extend_timeseries_zero df off Hreg)|].
  repeat split.
Qed.

Lemma extend_timeseries_zero_step_adds_nothing_witness :
  extend_bounds sample_table None None (Some (StepInt 0))
  = Ok (T 10, T 30) /\
  exists r,
    extend_timeseries sample_table None None (Some (StepInt 0)) = Ok r /\
    index r = [10; 20; 30] /\
    columns r = columns sample_table /\
    index_min r = T 10 /\
    index_max r = T 30.
Proof.
  exact (extend_timeseries_zero_step_adds_nothing
           sample_table (Tick 10) sample_table_regular).
Defined.

(** C4.  A duration that is negative moves the lower bound later, not
    earlier: with the step of minus ten nanoseconds the sample table loses
    its first row, where a row before it was to be added. *)
Theorem extend_timeseries_negative_duration_drops_first_row :
  extend_bounds sample_table None None (Some (StepDelta (-10)))
  = Ok (T 20, T 30) /\
  extend_timeseries sample_table None None (Some (StepDelta (-10)))
  = Ok {| index := [20; 30];
          freq := Some (Tick 10);
          columns := [("a"%string, [Fin 2; Fin 3]);
                      ("b"%string, [Fin 5; Fin 6])] |}.
Proof. split; reflexivity. Qed.

(** The same step given as the integer [-1] adds the row before the first
    one. *)
Lemma extend_timeseries_negative_integer_adds_first_row :
  extend_timeseries sample_table None None (Some (StepInt (-1)))
  = Ok {| index := [0; 10; 20; 30];
          freq := Some (Tick 10);
          columns := [("a"%string, [NaN; Fin 1; Fin 2; Fin 3]);
                      ("b"%string, [NaN; Fin 4; Fin 5; Fin 6])] |}.
Proof. reflexivity. Qed.

(** * Further properties *)

(** ** Shapes the metrics accept *)

Section Shapes.

Context {A B C : Type}.

Lemma broadcast2_swap (f : A -> B -> C) (xs : list A) (ys : list B) :
  Np.broadcast2 f xs ys = Np.broadcast2 (fun b a => f a b) ys xs.
Proof.
  unfold Np.broadcast2. rewrite (Nat.eqb_sym (List.length ys)).
  destruct (Nat.eqb (List.length xs) (List.length ys)) eqn:E.
  - f_equal. apply Nat.eqb_eq in E. revert ys E.
    induction xs as [|x xs IH]; intros [|y ys] E; simpl in *;
      try discriminate; auto.
    f_equal; auto.
  - destruct xs as [|x [|x' xs]], ys as [|y [|y' ys]]; simpl in *;
      try discriminate; auto.
Qed.

Lemma broadcast2_map {D : Type} (h : C -> D) (f : A -> B -> C) xs ys :
  bind (Np.broadcast2 f xs ys) (fun d => Ok (map h d))
  = Np.broadcast2 (fun a b => h (f a b)) xs ys.
Proof.
  unfold Np.broadcast2.
  destruct (Nat.eqb (List.length xs) (List.length ys)).
  - simpl. f_equal. revert ys; induction xs as [|x xs IH]; intros [|y ys];
      simpl; auto. now rewrite IH.
  - destruct xs as [|x [|x' xs]], ys as [|y [|y' ys]]; simpl; auto;
      now rewrite !map_map.
Qed.

Lemma broadcast2_ext (f g : A -> B -> C) xs ys :
  (forall a b, f a b = g a b) ->
  Np.broadcast2 f xs ys = Np.broadcast2 g xs ys.
Proof.
  intros H. unfold Np.broadcast2.
  destruct (Nat.eqb (List.length xs) (List.length ys)).
  - f_equal. revert ys; induction xs as [|x xs IH]; intros [|y ys];
      simpl; auto. now rewrite IH, H.
  - assert (Hl : forall x l, map (f x) l = map (g x) l)
      by (intros; apply map_ext; auto).
    assert (Hr : forall y l, map (fun x => f x y) l = map (fun x => g x y) l)
      by (intros; apply map_ext; auto).
    destruct xs as [|x [|x' xs]], ys as [|y [|y' ys]]; cbv beta iota;
      rewrite ?Hl, ?Hr; reflexivity.
Qed.

End Shapes.

(** ** The metrics on arrays of any values *)

Section MetricsAnyValues.

Local Open Scope R_scope.

Lemma bind_bind {A B C : Type} (m : result A) (k : A -> result B)
    (k' : B -> result C) :
  bind (bind m k) k' = bind m (fun a => bind (k a) k').
Proof. now destruct m. Qed.

Lemma square_sub_sym (a b : num) :
  Num.square (Num.sub a b) = Num.square (Num.sub b a).
Proof.
  destruct a, b; simpl; auto. unfold Num.square; simpl. f_equal; ring.
Qed.

Lemma abs_sub_sym (a b : num) :
  Num.abs (Num.sub a b) = Num.abs (Num.sub b a).
Proof.
  destruct a, b; simpl; auto. f_equal.
  replace (r + - r0) with (- (r0 + - r)) by ring. apply Rabs_Ropp.
Qed.

Lemma RMSE_as_broadcast (Y y : list num) :
  RMSE Y y
  = bind (Np.broadcast2 (fun a b => Num.square (Num.sub a b)) Y y)
         (fun e => Ok (Num.sqrt (Np.mean e))).
Proof.
  rewrite <- broadcast2_map, bind_bind. reflexivity.
Qed.

Lemma MAE_as_broadcast (Y y : list num) :
  MAE Y y
  = bind (Np.broadcast2 (fun a b => Num.abs (Num.sub a b)) Y y)
         (fun e => Ok (Np.mean e)).
Proof.
  rewrite <- broadcast2_map, bind_bind. reflexivity.
Qed.

(** X1.  RMSE and MAE do not tell the observed from the predicted
    sequence: swapping the two arguments gives the same outcome, for arrays
    of any shape and any values. *)
Theorem RMSE_MAE_symmetric (Y y : list num) :
  RMSE Y y = RMSE y Y /\ MAE Y y = MAE y Y.
Proof.
  split.
  - rewrite !RMSE_as_broadcast, (broadcast2_swap _ Y y).
    f_equal. apply broadcast2_ext. intros; apply square_sub_sym.
  - rewrite !MAE_as_broadcast, (broadcast2_swap _ Y y).
    f_equal. apply broadcast2_ext. intros; apply abs_sub_sym.
Qed.

End MetricsAnyValues.

(** ** A forecast that equals the observations *)

Section PerfectForecast.

Local Open Scope R_scope.

Lemma Rsum_all_zero (l : list R) :
  Forall (fun x => x = 0) l -> Rsum l = 0.
Proof. induction 1 as [|x l -> Hl IH]; simpl; lra. Qed.

Lemma Rmean_all_zero (l : list R) :
  l <> [] -> Forall (fun x => x = 0) l -> Rmean l = 0.
Proof.
  intros H E. pose proof (INR_length_pos l H) as Hn. unfold Rmean.
  rewrite (Rsum_all_zero l E). field. lra.
Qed.

Lemma differences_of_equal (Y : list R) :
  Forall (fun d => d = 0) (Np.map2 Rminus Y Y).
Proof. induction Y as [|a Y IH]; simpl; constructor; auto. lra. Qed.

Lemma abs_pct_errors_of_equal (Y : list R) :
  Forall (fun a => a <> 0) Y ->
  Forall (fun x => x = 0) (abs_pct_errors Y Y).
Proof.
  unfold abs_pct_errors.
  induction 1 as [|a Y Ha HY IH]; simpl; constructor; auto.
  replace ((a - a) / a) with 0 by (field; auto). apply Rabs_R0.
Qed.

(** X4.  A forecast that equals the observations has no error: on a
    sequence of finite numbers that is not empty, [RMSE(Y, Y)] and
    [MAE(Y, Y)] are zero, and so is [MAPE(Y, Y)] when no observed value is
    zero. *)
Theorem metrics_of_perfect_forecast (Y : list num) :
  Y <> [] ->
  Forall (fun v => Num.isfinite v = true) Y ->
  RMSE Y Y = Ok (Fin 0) /\
  MAE Y Y = Ok (Fin 0) /\
  (Forall (fun v => v <> Fin 0) Y -> MAPE Y Y = Ok (Fin 0)).
Proof.
  intros Hne HY.
  destruct (map_Fin_finite Y HY) as [Ys ->].
  assert (Hne' : Ys <> []) by (intros ->; now apply Hne).
  assert (Hd : Np.map2 Rminus Ys Ys <> []) by now apply map2_nonempty.
  pose proof (differences_of_equal Ys) as Hz.
  split; [|split].
  - rewrite RMSE_Fin by auto. do 2 f_equal.
    rewrite Rmean_all_zero; [apply sqrt_0 | now apply map_nonempty |].
    apply Forall_map. eapply Forall_impl; [|exact Hz].
    intros d ->; ring.
  - rewrite MAE_Fin by auto. do 2 f_equal.
    apply Rmean_all_zero; [now apply map_nonempty|].
    apply Forall_map. eapply Forall_impl; [|exact Hz].
    intros d ->; apply Rabs_R0.
  - intros Hnz.
    assert (Hnz' : Forall (fun a => a <> 0) Ys).
    { rewrite Forall_forall in *. intros a Ha E.
      apply (Hnz (Fin a)); [now apply in_map | now rewrite E]. }
    rewrite MAPE_Fin_nonempty by auto. unfold mape_formula.
    rewrite Rmean_all_zero.
    + do 2 f_equal. ring.
    + unfold abs_pct_errors. now apply map2_nonempty.
    + now apply abs_pct_errors_of_equal.
Qed.

Lemma metrics_of_perfect_forecast_witness :
  RMSE [Fin 2; Fin 4] [Fin 2; Fin 4] = Ok (Fin 0) /\
  MAE [Fin 2; Fin 4] [Fin 2; Fin 4] = Ok (Fin 0) /\
  (Forall (fun v => v <> Fin 0) [Fin 2; Fin 4] ->
   MAPE [Fin 2; Fin 4] [Fin 2; Fin 4] = Ok (Fin 0)).
Proof.
  apply metrics_of_perfect_forecast;
    [discriminate | repeat constructor].
Defined.

End PerfectForecast.

(** ** The residual panel of [plot_tsresiduals] *)

Section ResidualPanel.

Local Open Scope R_scope.

Lemma residuals_are_real (Y y : list num) :
  Forall (fun v => v <> PInf /\ v <> NInf) Y ->
  Forall (fun v => v <> PInf /\ v <> NInf) y ->
  exists ds, residuals_spec Y y = map Fin ds.
Proof.
  intros HY; revert y. unfold residuals_spec.
  induction HY as [|a Y [Ha1 Ha2] HY IH]; intros y Hy.
  - exists []. reflexivity.
  - destruct Hy as [|b y [Hb1 Hb2] Hy]; [exists []; reflexivity|].
    destruct (IH y Hy) as (ds & E). simpl.
    destruct a as [a| | |], b as [b| | |]; try congruence; simpl;
      try (exists ds; exact E).
    exists ((a + - b) :: ds). simpl. now rewrite E.
Qed.

Lemma residuals_some_complete (Y y : list num) :
  Exists (fun p => Num.isnan (fst p) || Num.isnan (snd p) = false)
         (combine Y y) ->
  residuals_spec Y y <> [].
Proof.
  unfold residuals_spec. intros H E.
  apply map_eq_nil in E.
  apply Exists_exists in H. destruct H as (p & Hin & Hp).
  assert (Hf : In p (filter
                       (fun p => negb (Num.isnan (fst p) || Num.isnan (snd p)))
                       (combine Y y))).
  { apply filter_In; split; auto. now rewrite Hp. }
  rewrite E in Hf. contradiction.
Qed.

Lemma residuals_none_complete (Y y : list num) :
  Forall (fun p => Num.isnan (fst p) || Num.isnan (snd p) = true)
         (combine Y y) ->
  residuals_spec Y y = [].
Proof.
  unfold residuals_spec. intros H.
  induction H as [|p l Hp Hl IH]; simpl; auto.
  now rewrite Hp.
Qed.

(** X8.  With no infinite value in either of two equal-length sequences,
    no residual that [plot_tsresiduals] computes is NaN: the positions with
    a missing value are gone, and the subtraction brings in none.  There
    are at most as many residuals as positions. *)
Theorem plot_tsresiduals_residuals_not_nan (Y y : list num) :
  List.length Y = List.length y ->
  Forall (fun v => v <> PInf /\ v <> NInf) Y ->
  Forall (fun v => v <> PInf /\ v <> NInf) y ->
  exists dy,
    plot_tsresiduals_dy Y y = Ok dy /\
    Forall (fun v => Num.isnan v = false) dy /\
    (List.length dy <= List.length Y)%nat.
Proof.
  intros H HY Hy.
  rewrite plot_tsresiduals_dy_same_length by exact H.
  eexists; split; [reflexivity|]. split.
  - destruct (residuals_are_real Y y HY Hy) as (ds & ->).
    apply Forall_map, Forall_forall. reflexivity.
  - unfold residuals_spec. rewrite length_map.
    eapply Nat.le_trans; [apply filter_length_le|].
    rewrite length_combine. lia.
Qed.

Lemma plot_tsresiduals_residuals_not_nan_witness :
  exists dy,
    plot_tsresiduals_dy [Fin 5; NaN; Fin 3] [Fin 1; Fin 1; NaN] = Ok dy /\
    Forall (fun v => Num.isnan v = false) dy /\
    (List.length dy <= List.length [Fin 5; NaN; Fin 3])%nat.
Proof.
  apply plot_tsresiduals_residuals_not_nan.
  - reflexivity.
  - repeat constructor; discriminate.
  - repeat constructor; discriminate.
Defined.

(** X9.  When every position of two equal-length sequences has a missing
    value on one side or the other (or the sequences are empty), no
    residual is left and the limits of the residual panel cannot be
    computed: [plot_tsresiduals] raises [ValueError]. *)
Theorem plot_tsresiduals_nothing_left_raises (Y y : list num) :
  List.length Y = List.length y ->
  Forall (fun p => Num.isnan (fst p) || Num.isnan (snd p) = true)
         (combine Y y) ->
  plot_tsresiduals_dy Y y = Ok [] /\
  plot_tsresiduals_lim Y y = Raise ValueError.
Proof.
  intros H Hall. unfold plot_tsresiduals_lim.
  rewrite plot_tsresiduals_dy_same_length by exact H.
  now rewrite residuals_none_complete.
Qed.

Lemma plot_tsresiduals_nothing_left_raises_witness :
  plot_tsresiduals_dy [Fin 5; NaN] [NaN; Fin 1] = Ok [] /\
  plot_tsresiduals_lim [Fin 5; NaN] [NaN; Fin 1] = Raise ValueError.
Proof.
  apply plot_tsresiduals_nothing_left_raises.
  - reflexivity.
  - repeat constructor.
Defined.

Lemma minimum_Fin (a b : R) :
  Ord.minimum (Fin a) (Fin b) = Fin (Rmin a b).
Proof.
  unfold Ord.minimum, Ord.ltb, Rmin; simpl.
  destruct (Rcompare_spec b a), (Rle_dec a b); auto; try lra;
    f_equal; lra.
Qed.

Lemma maximum_Fin (a b : R) :
  Ord.maximum (Fin a) (Fin b) = Fin (Rmax a b).
Proof.
  unfold Ord.maximum, Ord.ltb, Rmax; simpl.
  destruct (Rcompare_spec a b), (Rle_dec a b); auto; try lra;
    f_equal; lra.
Qed.

Lemma py_max_Fin (a b : R) :
  Ord.py_max (Fin a) (Fin b) = Fin (Rmax a b).
Proof.
  unfold Ord.py_max, Ord.ltb, Rmax.
  destruct (Rcompare_spec a b), (Rle_dec a b); auto; try lra;
    f_equal; lra.
Qed.

Lemma fold_minimum_Fin (l : list R) (a : R) :
  fold_left Ord.minimum (map Fin l) (Fin a) = Fin (fold_left Rmin l a).
Proof.
  revert a; induction l as [|x l IH]; intros a; simpl; auto.
  now rewrite minimum_Fin, IH.
Qed.

Lemma fold_maximum_Fin (l : list R) (a : R) :
  fold_left Ord.maximum (map Fin l) (Fin a) = Fin (fold_left Rmax l a).
Proof.
  revert a; induction l as [|x l IH]; intros a; simpl; auto.
  now rewrite maximum_Fin, IH.
Qed.

Lemma fold_Rmin_le (l : list R) (a : R) :
  fold_left Rmin l a <= a /\ Forall (fun x => fold_left Rmin l a <= x) l.
Proof.
  revert a; induction l as [|x l IH]; intros a; simpl.
  - split; [lra | constructor].
  - destruct (IH (Rmin a x)) as [H1 H2].
    pose proof (Rmin_l a x). pose proof (Rmin_r a x).
    split; [lra|]. constructor; [lra | exact H2].
Qed.

Lemma fold_Rmax_ge (l : list R) (a : R) :
  a <= fold_left Rmax l a /\ Forall (fun x => x <= fold_left Rmax l a) l.
Proof.
  revert a; induction l as [|x l IH]; intros a; simpl.
  - split; [lra | constructor].
  - destruct (IH (Rmax a x)) as [H1 H2].
    pose proof (Rmax_l a x). pose proof (Rmax_r a x).
    split; [lra|]. constructor; [lra | exact H2].
Qed.

(** X10.  With no infinite value in either of two equal-length sequences
    and at least one position where both values are present, the limits of
    the residual panel are a pair [(-L, L)] with [L >= 0], and every
    residual lies between them, the limits included. *)
Theorem plot_tsresiduals_limits_enclose (Y y : list num) :
  List.length Y = List.length y ->
  Forall (fun v => v <> PInf /\ v <> NInf) Y ->
  Forall (fun v => v <> PInf /\ v <> NInf) y ->
  Exists (fun p => Num.isnan (fst p) || Num.isnan (snd p) = false)
         (combine Y y) ->
  exists dy L,
    plot_tsresiduals_dy Y y = Ok dy /\
    plot_tsresiduals_lim Y y = Ok (Num.neg L, L) /\
    Num.le (Fin 0) L /\
    Forall (fun d => Num.le (Num.neg L) d /\ Num.le d L) dy.
Proof.
  intros H HY Hy Hex.
  destruct (residuals_are_real Y y HY Hy) as (ds & E).
  pose proof (residuals_some_complete Y y Hex) as Hne.
  rewrite E in Hne.
  destruct ds as [|d ds]; [now contradiction Hne|].
  set (lo := fold_left Rmin ds d).
  set (hi := fold_left Rmax ds d).
  exists (map Fin (d :: ds)), (Fin (11 / 10 * Rmax (- lo) hi)).
  unfold plot_tsresiduals_lim.
  rewrite plot_tsresiduals_dy_same_length by exact H.
  rewrite E. split; [reflexivity|].
  destruct (fold_Rmin_le ds d) as [Hlo1 Hlo2].
  destruct (fold_Rmax_ge ds d) as [Hhi1 Hhi2].
  fold lo in Hlo1, Hlo2. fold hi in Hhi1, Hhi2.
  pose proof (Rmax_l (- lo) hi) as Hm1.
  pose proof (Rmax_r (- lo) hi) as Hm2.
  assert (Hm0 : 0 <= Rmax (- lo) hi) by lra.
  split; [|split].
  - simpl. rewrite fold_minimum_Fin, fold_maximum_Fin. fold lo hi.
    simpl. now rewrite py_max_Fin.
  - simpl. lra.
  - apply Forall_map. constructor; [simpl; lra|].
    rewrite Forall_forall in *. intros x Hx.
    specialize (Hlo2 x Hx). specialize (Hhi2 x Hx). simpl. lra.
Qed.

Lemma plot_tsresiduals_limits_enclose_witness :
  exists dy L,
    plot_tsresiduals_dy [Fin 5; NaN; Fin 3] [Fin 1; Fin 1; Fin 4] = Ok dy /\
    plot_tsresiduals_lim [Fin 5; NaN; Fin 3] [Fin 1; Fin 1; Fin 4]
    = Ok (Num.neg L, L) /\
    Num.le (Fin 0) L /\
    Forall (fun d => Num.le (Num.neg L) d /\ Num.le d L) dy.
Proof.
  apply plot_tsresiduals_limits_enclose.
  - reflexivity.
  - repeat constructor; discriminate.
  - repeat constructor; discriminate.
  - apply Exists_cons_hd. reflexivity.
Defined.

End ResidualPanel.

(** ** More on [compute] *)

Section ComputeMore.

Lemma fit_column_misfit (n : nat) (col : list num) :
  List.length col <> n -> List.length col <> 1%nat ->
  Pd.fit_column n col = Raise ValueError.
Proof.
  intros Hn H1. unfold Pd.fit_column.
  apply Nat.eqb_neq in Hn. rewrite Hn.
  destruct col as [|v [|w col]]; auto. now contradiction H1.
Qed.

Lemma fit_columns_misfit (n : nat) (data : list (string * list num)) :
  Exists (fun c => List.length (snd c) <> n /\
                   List.length (snd c) <> 1%nat) data ->
  Pd.fit_columns n data = Raise ValueError.
Proof.
  induction 1 as [c data [Hn H1] | c data _ IH]; simpl.
  - now rewrite fit_column_misfit.
  - rewrite IH. destruct (Pd.fit_column n (snd c)) as [col|e] eqn:E; auto.
    simpl. f_equal. unfold Pd.fit_column in E.
    destruct (Nat.eqb (List.length (snd c)) n); [discriminate|].
    destruct (snd c) as [|v [|w col]]; congruence.
Qed.

(** A column of one value is not a misfit: it is repeated over the rows. *)
Lemma fit_column_one_value (n : nat) (v : num) :
  Pd.fit_column n [v] = Ok (repeat v n).
Proof.
  unfold Pd.fit_column. destruct n as [|[|n]]; reflexivity.
Qed.

(** X11.  When one of the columns that the user function returns has
    neither one value per row of the table nor one value in all,
    [compute] raises [ValueError], whatever the other columns are. *)
Theorem compute_misfit_raises (df : DataFrame)
    (f : DataFrame -> list (string * list num)) :
  Exists (fun c => List.length (snd c) <> List.length (index df) /\
                   List.length (snd c) <> 1%nat) (f df) ->
  compute df f = Raise ValueError.
Proof.
  intros H. unfold compute, Pd.make_frame.
  now rewrite fit_columns_misfit.
Qed.

Lemma compute_misfit_raises_witness :
  compute sample_table (fun _ => [("c"%string, [Fin 7; Fin 8])])
  = Raise ValueError.
Proof.
  apply compute_misfit_raises.
  apply Exists_cons_hd. simpl. lia.
Defined.

(** A column of one value is taken for every row. *)
Example compute_one_value :
  compute sample_table (fun _ => [("c"%string, [Fin 7])])
  = Ok {| index := [10; 20; 30];
          freq := Some (Tick 10);
          columns := [("a"%string, [Fin 1; Fin 2; Fin 3]);
                      ("b"%string, [Fin 4; Fin 5; Fin 6]);
                      ("c"%string, [Fin 7; Fin 7; Fin 7])] |}.
Proof. reflexivity. Qed.

(** X12.  [compute] keeps the index and the frequency of the table, and
    lays the columns out as: the columns of the table whose names the user
    function does not produce, in the order they had, and then the columns
    the user function produced, in its order.  A replaced column therefore
    moves behind the columns that are kept. *)
Theorem compute_layout (df : DataFrame)
    (f : DataFrame -> list (string * list num)) :
  Pd.is_unique (index df) = true ->
  Forall (fun c => List.length (snd c) = List.length (index df)) (f df) ->
  exists r,
    compute df f = Ok r /\
    index r = index df /\
    freq r = freq df /\
    columns r
    = filter (fun c => negb (Pd.str_mem (fst c) (map fst (f df))))
             (columns df)
      ++ f df.
Proof.
  intros Hu Hfit. eexists. split; [now apply compute_columns|].
  repeat split.
Qed.

Lemma compute_layout_witness :
  exists r,
    compute sample_table sample_columns = Ok r /\
    index r = index sample_table /\
    freq r = freq sample_table /\
    columns r
    = filter (fun c =>
                negb (Pd.str_mem (fst c)
                        (map fst (sample_columns sample_table))))
             (columns sample_table)
      ++ sample_columns sample_table.
Proof.
  apply compute_layout.
  - reflexivity.
  - repeat constructor.
Defined.

Lemma filter_all {A : Type} (p : A -> bool) (l : list A) :
  Forall (fun x => p x = true) l -> filter p l = l.
Proof.
  induction 1 as [|x l Hx Hl IH]; simpl; auto. now rewrite Hx, IH.
Qed.

Lemma filter_none {A : Type} (p : A -> bool) (l : list A) :
  Forall (fun x => p x = false) l -> filter p l = [].
Proof.
  induction 1 as [|x l Hx Hl IH]; simpl; auto. now rewrite Hx.
Qed.

(** X13.  Computing the same columns again changes nothing: when the user
    function gives on the result of [compute] the columns it gave on the
    table, [compute] on that result returns it as it is. *)
Theorem compute_idempotent (df r : DataFrame)
    (f : DataFrame -> list (string * list num)) :
  Pd.is_unique (index df) = true ->
  Forall (fun c => List.length (snd c) = List.length (index df)) (f df) ->
  compute df f = Ok r ->
  f r = f df ->
  compute r f = Ok r.
Proof.
  intros Hu Hfit Hr Hf.
  rewrite compute_columns in Hr by assumption.
  injection Hr as <-.
  rewrite compute_columns; simpl; rewrite ?Hf; auto.
  set (new := f df). set (keep := fun c : string * list num =>
                                    negb (Pd.str_mem (fst c) (map fst new))).
  assert (E : filter keep (filter keep (columns df) ++ new)
              = filter keep (columns df)).
  { rewrite filter_app.
    rewrite (filter_all keep (filter keep (columns df))).
    - rewrite (filter_none keep new); [now rewrite app_nil_r|].
      apply Forall_forall. intros c Hc.
      apply negb_false_iff, str_mem_In. now apply in_map.
    - apply Forall_forall. intros c Hc.
      apply filter_In in Hc. tauto. }
  now rewrite E.
Qed.

Lemma compute_idempotent_witness :
  compute {| index := [10; 20; 30];
             freq := Some (Tick 10);
             columns := [("a"%string, [Fin 1; Fin 2; Fin 3]);
                         ("b"%string, [Fin 0; Fin 0; Fin 0]);
                         ("c"%string, [Fin 7; Fin 8; Fin 9])] |}
          sample_columns
  = Ok {| index := [10; 20; 30];
          freq := Some (Tick 10);
          columns := [("a"%string, [Fin 1; Fin 2; Fin 3]);
                      ("b"%string, [Fin 0; Fin 0; Fin 0]);
                      ("c"%string, [Fin 7; Fin 8; Fin 9])] |}.
Proof.
  apply (compute_idempotent sample_table).
  - reflexivity.
  - repeat constructor.
  - reflexivity.
  - reflexivity.
Defined.

Lemma NoDup_map_filter {A B : Type} (g : A -> B) (p : A -> bool)
    (l : list A) :
  NoDup (map g l) -> NoDup (map g (filter p l)).
Proof.
  induction l as [|x l IH]; simpl; auto.
  intros H. inversion H as [|? ? Hx Hl]; subst.
  destruct (p x); simpl; auto. constructor; auto.
  intros Hin. apply Hx. apply in_map_iff in Hin.
  destruct Hin as (z & E & Hz). apply filter_In in Hz.
  rewrite <- E. apply in_map. tauto.
Qed.

(** X14.  [compute] keeps a table in order: from a table with unique row
    labels, one value per row in every column and no column name twice,
    and new columns that fit and have no name twice, it returns a table
    with the same row labels, one value per row in every column and no
    column name twice. *)
Theorem compute_keeps_table_invariants (df : DataFrame)
    (f : DataFrame -> list (string * list num)) :
  Pd.is_unique (index df) = true ->
  well_formed df ->
  NoDup (column_names df) ->
  Forall (fun c => List.length (snd c) = List.length (index df)) (f df) ->
  NoDup (map fst (f df)) ->
  exists r,
    compute df f = Ok r /\
    Pd.is_unique (index r) = true /\
    well_formed r /\
    NoDup (column_names r).
Proof.
  intros Hu Hwf Hnd Hfit Hnew.
  eexists. split; [now apply compute_columns|].
  unfold well_formed, column_names; simpl. split; [exact Hu|]. split.
  - apply Forall_app; split; auto.
    unfold well_formed in Hwf. rewrite Forall_forall in *.
    intros c Hc. apply filter_In in Hc. apply Hwf; tauto.
  - rewrite map_app. apply NoDup_app.
    + now apply NoDup_map_filter.
    + exact Hnew.
    + intros n Hn Hn'. apply in_map_iff in Hn.
      destruct Hn as (c & <- & Hc). apply filter_In in Hc.
      destruct Hc as [_ Hc].
      apply negb_true_iff, str_mem_false in Hc. contradiction.
Qed.

Lemma compute_keeps_table_invariants_witness :
  exists r,
    compute sample_table sample_columns = Ok r /\
    Pd.is_unique (index r) = true /\
    well_formed r /\
    NoDup (column_names r).
Proof.
  apply compute_keeps_table_invariants.
  - reflexivity.
  - repeat constructor.
  - repeat constructor; simpl; intuition discriminate.
  - repeat constructor.
  - repeat constructor; simpl; intuition discriminate.
Defined.

End ComputeMore.

(** ** More on [extend_timeseries] *)

Section ExtendMore.

Variable df : DataFrame.
Variable off : DateOffset.
Hypothesis df_regular : regular df off.

Lemma padded_after_wf (k : nat) (extra : list Z) :
  List.length extra = k ->
  well_formed
    {| index := index df ++ extra; freq := Some off;
       columns := map (fun c => (fst c, snd c ++ missing k)) (columns df) |}.
Proof.
  intros Hk. destruct df_regular as [_ _ _ _ Hwf].
  unfold well_formed in *; simpl. apply Forall_map.
  eapply Forall_impl; [|exact Hwf]. intros c Hc; simpl in *.
  unfold missing. rewrite !length_app, repeat_length. lia.
Qed.

Lemma padded_before_wf (k : nat) (extra : list Z) :
  List.length extra = k ->
  well_formed
    {| index := extra ++ index df; freq := Some off;
       columns := map (fun c => (fst c, missing k ++ snd c)) (columns df) |}.
Proof.
  intros Hk. destruct df_regular as [_ _ _ _ Hwf].
  unfold well_formed in *; simpl. apply Forall_map.
  eapply Forall_impl; [|exact Hwf]. intros c Hc; simpl in *.
  unfold missing. rewrite !length_app, repeat_length. lia.
Qed.

(** The table extended forward is regular again, and ends [k] steps
    later. *)
Lemma extended_forward_regular (k : nat) (tmax : Z) :
  index_max df = T tmax ->
  let r := {| index := index df ++ steps_after off tmax k;
              freq := Some off;
              columns :=
                map (fun c => (fst c, snd c ++ missing k)) (columns df) |} in
  regular r off /\ index_max r = T (Nat.iter k (next off) tmax).
Proof.
  intros Hmax r.
  destruct (regular_ends df off df_regular)
    as (t & l & Hidx & Hc & Hmin & Hmax').
  pose proof df_regular as [Hf Hlaw _ _ Hwf].
  rewrite Hmax in Hmax'. injection Hmax' as ->.
  pose proof (conforms_extend_after off Hlaw t l k Hc) as Hck.
  split.
  - constructor; simpl; auto.
    + now rewrite Hidx.
    + rewrite Hidx. discriminate.
    + apply padded_after_wf, steps_after_length.
  - unfold index_max, r; simpl. rewrite Hidx; simpl. f_equal.
    rewrite (conforms_max off Hlaw t _ Hck).
    apply last_extend_after.
Qed.

Lemma extended_backward_regular (k : nat) (tmin : Z) :
  index_min df = T tmin ->
  let r := {| index := steps_before off tmin k ++ index df;
              freq := Some off;
              columns :=
                map (fun c => (fst c, missing k ++ snd c)) (columns df) |} in
  regular r off.
Proof.
  intros Hmin r.
  destruct (regular_ends df off df_regular)
    as (t & l & Hidx & Hc & Hmin' & Hmax).
  pose proof df_regular as [Hf Hlaw _ _ Hwf].
  rewrite Hmin in Hmin'. injection Hmin' as ->.
  destruct (conforms_extend_before off Hlaw t l k Hc) as (l' & E & Hc' & _).
  constructor; simpl; auto.
  - now rewrite Hidx, E.
  - rewrite Hidx, E. discriminate.
  - apply padded_before_wf, steps_before_length.
Qed.

Lemma unchanged_regular :
  regular {| index := index df; freq := Some off; columns := columns df |}
          off.
Proof.
  destruct df_regular as [Hf Hlaw Hc Hne Hwf].
  constructor; simpl; auto.
Qed.

Lemma steps_after_app (t : Z) (a b : nat) :
  steps_after off t (a + b)
  = steps_after off t a ++ steps_after off (Nat.iter a (next off) t) b.
Proof.
  revert t; induction a as [|a IH]; intros t; auto.
  change (steps_after off t (S a + b))
    with (next off t :: steps_after off (next off t) (a + b)).
  rewrite IH, Nat.iter_succ_r. reflexivity.
Qed.

(** Steps forward lead later, and stay on the frequency. *)
Lemma iter_next_later (t : Z) (k : nat) :
  onOffset off t = true ->
  onOffset off (Nat.iter k (next off) t) = true /\
  t <= Nat.iter k (next off) t.
Proof.
  destruct df_regular as [_ Hlaw _ _ _]. intros Ht.
  induction k as [|k [IHon IHle]]; [split; [exact Ht | simpl; lia]|].
  rewrite Nat.iter_succ. split.
  - now apply next_on.
  - pose proof (next_gt off Hlaw _ IHon). lia.
Qed.

(** A time stamp that can be moved some steps forward can be moved fewer,
    and from there the rest. *)
Lemma can_shift_in_two (t : Z) (a b : nat) :
  onOffset off t = true ->
  is_timestamp t = true ->
  can_shift t (Nat.iter (a + b) (next off) t) = true ->
  can_shift t (Nat.iter a (next off) t) = true /\
  can_shift (Nat.iter a (next off) t)
            (Nat.iter b (next off) (Nat.iter a (next off) t)) = true.
Proof.
  intros Ht Hin Hc.
  destruct (iter_next_later t a Ht) as [Hon Hle].
  destruct (iter_next_later _ b Hon) as [_ Hle'].
  assert (E : Nat.iter (a + b) (next off) t
              = Nat.iter b (next off) (Nat.iter a (next off) t))
    by (rewrite Nat.add_comm; apply Nat.iter_add).
  rewrite E in Hc.
  set (u := Nat.iter a (next off) t) in *.
  set (v := Nat.iter b (next off) u) in *.
  unfold can_shift, is_timestamp, is_duration, ts_min, ts_max, td_max in *.
  rewrite !andb_true_iff, !Z.leb_le in *. lia.
Qed.

End ExtendMore.

(** X15.  On a table indexed regularly at a frequency, with no bounds
    given, [extend_timeseries] returns for every integer step that there is
    room for (after the last label for a positive step, before the first
    for a negative one) a table that is again indexed regularly at that
    frequency, with as many rows more as the size of the step. *)
Theorem extend_timeseries_keeps_regular
    (df : DataFrame) (off : DateOffset) (n : Z) (first_label last_label : Z) :
  regular df off ->
  index_min df = T first_label ->
  index_max df = T last_label ->
  room_after off last_label (Z.to_nat n) = true ->
  room_before off first_label (Z.to_nat (- n)) = true ->
  exists r,
    extend_timeseries df None None (Some (StepInt n)) = Ok r /\
    regular r off /\
    List.length (index r) = (List.length (index df) + Z.abs_nat n)%nat.
Proof.
  intros Hreg Hmin Hmax Hfwd Hbwd.
  apply andb_true_iff in Hfwd. destruct Hfwd as [Hfwd _].
  unfold room_before in Hbwd.
  destruct (Z.lt_trichotomy n 0) as [Hn | [-> | Hn]].
  - eexists.
    split; [now apply (extend_timeseries_backward df off Hreg n first_label);
            auto|].
    split.
    + now apply extended_backward_regular.
    + simpl. rewrite length_app, steps_before_length. lia.
  - eexists. split; [exact (extend_timeseries_zero df off Hreg)|].
    split; [now apply unchanged_regular | simpl; lia].
  - eexists.
    split; [now apply (extend_timeseries_forward df off Hreg n last_label);
            auto|].
    split.
    + now apply extended_forward_regular.
    + simpl. rewrite length_app, steps_after_length. lia.
Qed.

Lemma extend_timeseries_keeps_regular_witness :
  exists r,
    extend_timeseries sample_table None None (Some (StepInt (-3))) = Ok r /\
    regular r (Tick 10) /\
    List.length (index r)
    = (List.length (index sample_table) + Z.abs_nat (-3))%nat.
Proof.
  apply (extend_timeseries_keeps_regular sample_table (Tick 10) (-3) 10 30);
    [exact sample_table_regular | reflexivity | reflexivity
    | reflexivity | reflexivity].
Defined.

(** X16.  Extending a regular table by [n] steps forward and the result by
    [m] steps forward gives what extending by [n + m] steps gives, when
    there is room for [n + m] rows after the last label. *)
Theorem extend_timeseries_forward_twice
    (df : DataFrame) (off : DateOffset) (n m : Z) (last_label : Z) :
  regular df off ->
  0 < n -> 0 < m ->
  index_max df = T last_label ->
  is_timestamp last_label = true ->
  room_after off last_label (Z.to_nat (n + m)) = true ->
  exists r,
    extend_timeseries df None None (Some (StepInt n)) = Ok r /\
    extend_timeseries r None None (Some (StepInt m))
    = extend_timeseries df None None (Some (StepInt (n + m))).
Proof.
  intros Hreg Hn Hm Hmax Hin Hroom.
  apply andb_true_iff in Hroom. destruct Hroom as [Hfit _].
  destruct (regular_ends df off Hreg) as (t & l & Hidx & Hc & Hmin & Hmax0).
  pose proof Hreg as [_ Hlaw _ _ _].
  rewrite Hmax in Hmax0. injection Hmax0 as ->.
  pose proof (conforms_last_on off t l Hc) as Hon.
  rewrite Z2Nat.inj_add in Hfit by lia.
  destruct (can_shift_in_two df off Hreg _ _ _ Hon Hin Hfit) as [Hfit1 Hfit2].
  destruct (extended_forward_regular df off Hreg (Z.to_nat n) (last l t) Hmax)
    as [Hreg' Hmax'].
  eexists.
  split; [now apply (extend_timeseries_forward df off Hreg n (last l t))|].
  rewrite (extend_timeseries_forward _ off Hreg' m _ Hm Hmax' Hfit2).
  rewrite (extend_timeseries_forward df off Hreg (n + m) (last l t))
    by (auto; try lia; now rewrite Z2Nat.inj_add by lia).
  simpl. rewrite Z2Nat.inj_add by lia.
  rewrite steps_after_app, <- app_assoc. do 2 f_equal.
  rewrite map_map. apply map_ext. intros c; simpl.
  unfold missing. now rewrite repeat_app, <- app_assoc.
Qed.

Lemma extend_timeseries_forward_twice_witness :
  exists r,
    extend_timeseries sample_table None None (Some (StepInt 1)) = Ok r /\
    extend_timeseries r None None (Some (StepInt 2))
    = extend_timeseries sample_table None None (Some (StepInt (1 + 2))).
Proof.
  apply (extend_timeseries_forward_twice sample_table (Tick 10) 1 2 30);
    [exact sample_table_regular | reflexivity | reflexivity | reflexivity
    | reflexivity | reflexivity].
Defined.

(** ** Bounds given explicitly *)

Section ExplicitBounds.

Lemma nth_skipn_plus {A : Type} (i j : nat) (l : list A) (d : A) :
  nth j (skipn i l) d = nth (i + j) l d.
Proof.
  revert l; induction i as [|i IH]; intros [|x l]; simpl; auto.
  now destruct j.
Qed.

Lemma firstn_ends {A : Type} (k : nat) (l : list A) (d : A) :
  (0 < k <= List.length l)%nat ->
  exists tl,
    firstn k l = nth 0 l d :: tl /\
    last tl (nth 0 l d) = nth (k - 1) l d.
Proof.
  revert l; induction k as [|k IH]; intros l Hk; [lia|].
  destruct l as [|x l]; simpl in Hk; [lia|].
  destruct k as [|k].
  - exists []. split; reflexivity.
  - destruct (IH l) as (tl & E & Hl); [lia|].
    exists (nth 0 l d :: tl). split.
    + change (firstn (S (S k)) (x :: l)) with (x :: firstn (S k) l).
      now rewrite E.
    + rewrite last_cons, Hl. simpl. now rewrite Nat.sub_0_r.
Qed.

Lemma take_skipn (idx : list Z) (col : list num) (i : nat) :
  NoDup idx ->
  List.length col = List.length idx ->
  Pd.take idx col (skipn i idx) = skipn i col.
Proof.
  intros Hnd; revert col i.
  induction Hnd as [|x idx Hx Hnd IH]; intros col i H.
  - destruct col; [|discriminate]. now destruct i.
  - destruct col as [|c col]; [discriminate|]. injection H as H.
    destruct i as [|i].
    + apply take_self; [now constructor | simpl; now rewrite H].
    + simpl skipn. rewrite take_cons_notin; [now apply IH|].
      intros Hin. apply Hx.
      rewrite <- (firstn_skipn i idx). apply in_or_app; now right.
Qed.

Lemma take_firstn (old : list Z) (col : list num) (k : nat)
    (target : list Z) :
  Pd.take old col (firstn k target) = firstn k (Pd.take old col target).
Proof. unfold Pd.take. symmetry; apply firstn_map. Qed.

Variable off : DateOffset.
Hypothesis off_lawful : Lawful off.

Lemma conforms_tail (t : Z) (l : list Z) :
  conforms off (t :: l) = true -> conforms off l = true.
Proof. intros H. apply conforms_cons in H. tauto. Qed.

Lemma conforms_skipn (i : nat) (l : list Z) :
  conforms off l = true -> conforms off (skipn i l) = true.
Proof.
  revert l; induction i as [|i IH]; intros [|t l] H; simpl skipn; auto.
  apply IH. now apply conforms_tail in H.
Qed.

Lemma conforms_firstn (k : nat) (l : list Z) :
  conforms off l = true -> conforms off (firstn k l) = true.
Proof.
  revert l; induction k as [|k IH]; intros [|t l] H; auto.
  change (firstn (S k) (t :: l)) with (t :: firstn k l).
  apply conforms_cons in H. destruct H as (Ht & Hl & Hu).
  apply conforms_intro; auto.
  destruct k, l; simpl; auto.
Qed.

End ExplicitBounds.

(** X17.  With both bounds given as labels of a regular table, the lower
    one not after the upper one, and no step, [extend_timeseries] returns
    the part of the table between the two labels: the rows outside are
    dropped and the rows inside keep their values. *)
Theorem extend_timeseries_explicit_range_truncates
    (df : DataFrame) (off : DateOffset) (i k : nat) :
  regular df off ->
  (0 < k)%nat ->
  (i + k <= List.length (index df))%nat ->
  extend_timeseries df
    (Some (T (nth (i + k - 1) (index df) 0)))
    (Some (T (nth i (index df) 0)))
    None
  = Ok (restrict df off i k).
Proof.
  intros Hreg Hk Hik.
  pose proof Hreg as [Hf Hlaw Hc Hne Hwf].
  assert (Hlen : (0 < k <= List.length (skipn i (index df)))%nat)
    by (rewrite length_skipn; lia).
  destruct (firstn_ends k (skipn i (index df)) 0 Hlen) as (tl & E & Hl).
  rewrite !nth_skipn_plus in *. rewrite Nat.add_0_r in *.
  replace (i + (k - 1))%nat with (i + k - 1)%nat in Hl by lia.
  assert (Hsub : conforms off (nth i (index df) 0 :: tl) = true).
  { rewrite <- E. now apply conforms_firstn, conforms_skipn. }
  unfold extend_timeseries, extend_bounds. rewrite bind_Ok, Hf.
  unfold fst, snd. rewrite <- Hl.
  rewrite (date_range_conforms off Hlaw) by exact Hsub.
  rewrite bind_Ok, <- E. unfold Pd.reindex, restrict.
  pose proof (conforms_NoDup off Hlaw _ Hc) as Hnd.
  destruct (Pd.index_equals (index df) (firstn k (skipn i (index df))))
    eqn:Heq.
  - apply index_equals_true in Heq.
    assert (Hk' : List.length (index df) = k).
    { rewrite Heq at 1. rewrite length_firstn, length_skipn. lia. }
    assert (i = 0)%nat as -> by lia.
    do 2 f_equal. rewrite <- (map_id (columns df)) at 1.
    apply map_ext_in. intros [n col] Hcol; simpl. f_equal.
    unfold rows; simpl. symmetry. apply firstn_all2.
    unfold well_formed in Hwf; rewrite Forall_forall in Hwf.
    specialize (Hwf _ Hcol). simpl in Hwf. lia.
  - rewrite (proj2 (is_unique_NoDup (index df)) Hnd).
    do 2 f_equal. apply map_ext_in. intros [n col] Hcol; simpl. f_equal.
    rewrite take_firstn, take_skipn; auto.
    unfold well_formed in Hwf; rewrite Forall_forall in Hwf.
    exact (Hwf _ Hcol).
Qed.

Lemma extend_timeseries_explicit_range_truncates_witness :
  extend_timeseries sample_table (Some (T 30)) (Some (T 20)) None
  = Ok {| index := [20; 30];
          freq := Some (Tick 10);
          columns := [("a"%string, [Fin 2; Fin 3]);
                      ("b"%string, [Fin 5; Fin 6])] |}.
Proof.
  apply (extend_timeseries_explicit_range_truncates
           sample_table (Tick 10) 1 2 sample_table_regular);
    simpl; lia.
Defined.

(** X18.  On a table with no frequency set on its index, every nonzero
    integer step raises [TypeError], whatever bounds are given, and so does
    the call with no argument. *)
Theorem extend_timeseries_without_frequency_raises
    (df : DataFrame) (n : Z) (tmax tmin : option timestamp) :
  freq df = None ->
  n <> 0 ->
  extend_timeseries df tmax tmin (Some (StepInt n)) = Raise TypeError /\
  extend_timeseries df None None None = Raise TypeError.
Proof.
  intros Hf Hn. unfold extend_timeseries, extend_bounds, add_steps.
  rewrite Hf. split.
  - destruct tmax, tmin; cbn beta iota zeta;
      destruct (Z.ltb_spec 0 n); auto;
      destruct (Z.ltb_spec n 0); auto; lia.
  - reflexivity.
Qed.

Lemma extend_timeseries_without_frequency_raises_witness :
  extend_timeseries sample_table_unset (Some (T 50)) None (Some (StepInt (-1)))
  = Raise TypeError /\
  extend_timeseries sample_table_unset None None None = Raise TypeError.
Proof.
  apply extend_timeseries_without_frequency_raises;
    [reflexivity | discriminate].
Defined.

(** X19.  On a table with no row and a frequency set, with no bounds given,
    [extend_timeseries] raises [ValueError] for every step and for none:
    the table has no first or last label to start from. *)
Theorem extend_timeseries_empty_table_raises
    (df : DataFrame) (off : DateOffset) (dt : option step) :
  index df = [] ->
  freq df = Some off ->
  extend_timeseries df None None dt = Raise ValueError.
Proof.
  intros Hidx Hf.
  unfold extend_timeseries, extend_bounds, add_steps, index_min, index_max.
  rewrite Hidx, Hf.
  destruct dt as [[n | d]|]; cbn beta iota zeta.
  - destruct (0 <? n); [reflexivity|]. destruct (n <? 0); reflexivity.
  - destruct (0 <? d); reflexivity.
  - reflexivity.
Qed.

Lemma extend_timeseries_empty_table_raises_witness :
  extend_timeseries
    {| index := []; freq := Some (Tick 10); columns := [("a"%string, [])] |}
    None None (Some (StepInt 2))
  = Raise ValueError.
Proof.
  apply (extend_timeseries_empty_table_raises _ (Tick 10)); reflexivity.
Defined.

Lemma iter_tick (s : positive) (k : nat) (t : Z) :
  Nat.iter k (next (Tick s)) t = t + Z.of_nat k * Z.pos s.
Proof.
  induction k as [|k IH]; [simpl; lia|].
  rewrite Nat.iter_succ, IH. simpl next. lia.
Qed.

(** X20.  At a fixed-length frequency, a positive duration of [k] steps of
    the frequency does what the integer step [k] does, whatever bounds are
    given. *)
Theorem extend_timeseries_duration_of_k_steps
    (df : DataFrame) (s : positive) (k : Z)
    (tmax tmin : option timestamp) :
  freq df = Some (Tick s) ->
  0 < k ->
  extend_timeseries df tmax tmin (Some (StepDelta (k * Z.pos s)))
  = extend_timeseries df tmax tmin (Some (StepInt k)).
Proof.
  intros Hf Hk.
  unfold extend_timeseries. f_equal.
  rewrite (extend_bounds_forward df (Tick s) Hf) by exact Hk.
  rewrite extend_bounds_duration.
  destruct (Z.ltb_spec 0 (k * Z.pos s)); [|nia].
  unfold shift_forward, reachable, add_delta, checked_shift.
  destruct (given_or tmax (index_max df)) as [z|]; auto.
  rewrite iter_tick, Z2Nat.id by lia.
  now destruct (can_shift z (z + k * Z.pos s)).
Qed.

Lemma extend_timeseries_duration_of_k_steps_witness :
  extend_timeseries sample_table None None (Some (StepDelta (2 * 10)))
  = extend_timeseries sample_table None None (Some (StepInt 2)).
Proof.
  apply (extend_timeseries_duration_of_k_steps sample_table 10 2);
    reflexivity.
Defined.

(** ** [set_freq] *)

Section SetFreqFacts.

Variable infer_freq : list Z -> result (option DateOffset).

Lemma asfreq_own_frequency (df : DataFrame) (off : DateOffset) :
  Lawful off ->
  conforms off (index df) = true ->
  index df <> [] ->
  asfreq df (Some off)
  = Ok {| index := index df; freq := Some off; columns := columns df |}.
Proof.
  intros Hlaw Hc Hne. unfold asfreq.
  destruct (index df) as [|t l] eqn:Hidx; [congruence|].
  rewrite (date_range_conforms off Hlaw) by exact Hc.
  rewrite bind_Ok. unfold Pd.reindex. rewrite Hidx.
  unfold Pd.index_equals.
  now destruct (list_eq_dec Z.eq_dec (t :: l) (t :: l)).
Qed.

Lemma detectable_nonempty (df : DataFrame) (off : DateOffset) :
  detectable df off -> index df <> [].
Proof.
  intros [_ _ Hlen _] E. rewrite E in Hlen. simpl in Hlen. lia.
Qed.

Lemma detectable_then_regular (df : DataFrame) (off : DateOffset) :
  detectable df off ->
  regular {| index := index df; freq := Some off; columns := columns df |}
          off.
Proof.
  intros Hd. pose proof (detectable_nonempty df off Hd) as Hne.
  destruct Hd as [Hlaw Hc Hlen Hwf].
  constructor; simpl; auto.
Qed.

(** The loop of the range generator, started on the frequency and not
    after the end, gives a conforming index that starts where it was
    started and does not pass the end. *)
Lemma generate_loop_chain (off : DateOffset) (fuel : nat) (cur stop : Z) :
  Lawful off ->
  onOffset off cur = true ->
  cur <= stop ->
  (Z.to_nat (stop - cur + 1) <= fuel)%nat ->
  exists l,
    Pd.generate_loop off fuel cur stop = Ok (cur :: l) /\
    conforms off (cur :: l) = true /\
    last l cur <= stop.
Proof.
  intros Hlaw. revert cur.
  induction fuel as [|fuel IH]; intros cur Hon Hle Hfuel; [lia|].
  simpl. destruct (Z.leb_spec cur stop); [|lia].
  destruct (Z.eqb_spec cur stop) as [-> | Hne].
  - exists []. simpl. rewrite Hon. repeat split; auto; lia.
  - pose proof (next_gt off Hlaw cur Hon) as Hgt.
    destruct (Z.leb_spec (next off cur) cur); [lia|].
    destruct (Z.le_gt_cases (next off cur) stop) as [Hns | Hns].
    + destruct (IH (next off cur)) as (l & E & Hc & Hl); auto.
      { now apply next_on. }
      { lia. }
      rewrite E, bind_Ok. exists (next off cur :: l).
      split; [reflexivity|]. split.
      * rewrite Hon, Z.eqb_refl. exact Hc.
      * now rewrite last_cons.
    + assert (E : Pd.generate_loop off fuel (next off cur) stop = Ok []).
      { destruct fuel; simpl; auto.
        destruct (Z.leb_spec (next off cur) stop); auto. lia. }
      rewrite E. exists []. simpl. rewrite Hon. repeat split; auto; lia.
Qed.

End SetFreqFacts.

(** X21.  On a table in which [pd.infer_freq] finds the frequency its index
    conforms to, [set_freq] with no frequency given returns the table with
    the rows and columns it had and that frequency set on its index. *)
Theorem set_freq_sets_inferred_frequency
    (infer_freq : list Z -> result (option DateOffset))
    (df : DataFrame) (off : DateOffset) :
  infer_freq (index df) = Ok (Some off) ->
  detectable df off ->
  exists r,
    set_freq infer_freq df None = Ok r /\
    index r = index df /\
    columns r = columns df /\
    freq r = Some off /\
    regular r off.
Proof.
  intros Hinf Hd.
  pose proof (detectable_nonempty df off Hd) as Hne.
  pose proof (detectable_then_regular df off Hd) as Hreg.
  destruct Hd as [Hlaw Hc Hlen Hwf].
  eexists. split.
  - unfold set_freq. rewrite Hinf, bind_Ok.
    now apply asfreq_own_frequency.
  - simpl. split; [reflexivity|]. split; [reflexivity|].
    split; [reflexivity|]. exact Hreg.
Qed.

Lemma set_freq_sets_inferred_frequency_witness :
  exists r,
    set_freq (fun _ => Ok (Some (Tick 10))) sample_table_unset None = Ok r /\
    index r = index sample_table_unset /\
    columns r = columns sample_table_unset /\
    freq r = Some (Tick 10) /\
    regular r (Tick 10).
Proof.
  apply set_freq_sets_inferred_frequency.
  - reflexivity.
  - constructor.
    + apply Tick_lawful.
    + reflexivity.
    + simpl; lia.
    + repeat constructor.
Defined.

(** X22.  A table with a detectable frequency that is not set makes
    [extend_timeseries] raise when called with no argument; after
    [set_freq] the same call returns the table with one row more, one step
    of the frequency after the last label, when there is room for that
    row. *)
Theorem set_freq_then_extend_timeseries
    (infer_freq : list Z -> result (option DateOffset))
    (df : DataFrame) (off : DateOffset) (last_label : Z) :
  freq df = None ->
  infer_freq (index df) = Ok (Some off) ->
  detectable df off ->
  index_max df = T last_label ->
  room_after off last_label 1 = true ->
  extend_timeseries df None None None = Raise TypeError /\
  exists r r',
    set_freq infer_freq df None = Ok r /\
    extend_timeseries r None None None = Ok r' /\
    index r' = index df ++ [next off last_label] /\
    columns r' = map (fun c => (fst c, snd c ++ [NaN])) (columns df).
Proof.
  intros Hf Hinf Hd Hlast Hroom.
  assert (Hfit : can_shift last_label (next off last_label) = true)
    by (apply andb_true_iff in Hroom; exact (proj1 Hroom)).
  split.
  - unfold extend_timeseries, extend_bounds, add_steps. now rewrite Hf.
  - pose proof (detectable_nonempty df off Hd) as Hne.
    pose proof (detectable_then_regular df off Hd) as Hreg.
    destruct Hd as [Hlaw Hc Hlen Hwf].
    do 2 eexists.
    split.
    { unfold set_freq. rewrite Hinf, bind_Ok.
      now apply asfreq_own_frequency. }
    split.
    { change (extend_timeseries ?d None None None)
        with (extend_timeseries d None None (Some (StepInt 1))).
      apply (extend_timeseries_forward _ off Hreg 1 last_label);
        [lia | exact Hlast | exact Hfit]. }
    simpl. split; reflexivity.
Qed.

Lemma set_freq_then_extend_timeseries_witness :
  extend_timeseries sample_table_unset None None None = Raise TypeError /\
  exists r r',
    set_freq (fun _ => Ok (Some (Tick 10))) sample_table_unset None = Ok r /\
    extend_timeseries r None None None = Ok r' /\
    index r' = index sample_table_unset ++ [next (Tick 10) 30] /\
    columns r'
    = map (fun c => (fst c, snd c ++ [NaN])) (columns sample_table_unset).
Proof.
  apply set_freq_then_extend_timeseries.
  - reflexivity.
  - reflexivity.
  - constructor.
    + apply Tick_lawful.
    + reflexivity.
    + simpl; lia.
    + repeat constructor.
  - reflexivity.
  - reflexivity.
Defined.

Lemma take_length (old : list Z) (col : list num) (target : list Z) :
  List.length (Pd.take old col target) = List.length target.
Proof. unfold Pd.take. apply length_map. Qed.

(** X23.  Given a frequency, [set_freq] does not infer one.  On a table
    with unique labels whose first and last label lie on the given
    frequency, the first not after the last, it returns a table indexed
    regularly at that frequency, which starts at the first label of the
    table and does not go beyond its last label. *)
Theorem set_freq_given_frequency_regular
    (infer_freq : list Z -> result (option DateOffset))
    (df : DataFrame) (f : DateOffset) (t : Z) (l : list Z) :
  index df = t :: l ->
  Lawful f ->
  onOffset f t = true ->
  onOffset f (last l t) = true ->
  t <= last l t ->
  Pd.is_unique (index df) = true ->
  well_formed df ->
  exists r l',
    set_freq infer_freq df (Some f) = Ok r /\
    index r = t :: l' /\
    regular r f /\
    last l' t <= last l t.
Proof.
  intros Hidx Hlaw Hon Hon' Hle Hu Hwf.
  destruct (generate_loop_chain f (Z.to_nat (last l t - t + 1)) t (last l t)
              Hlaw Hon Hle (Nat.le_refl _)) as (l' & E & Hc & Hl).
  assert (Hrange : Pd.date_range (T t) (T (last l t)) (Some f)
                   = Ok (t :: l', f)).
  { unfold Pd.date_range, Pd.generate_range. rewrite Hon, Hon'.
    destruct (Z.ltb_spec (last l t) t); [lia|]. now rewrite E. }
  unfold set_freq, asfreq. rewrite bind_Ok, Hidx, Hrange, bind_Ok.
  unfold Pd.reindex. rewrite Hidx.
  destruct (Pd.index_equals (t :: l) (t :: l')) eqn:Heq.
  - apply index_equals_true in Heq. injection Heq as <-.
    do 2 eexists. split; [reflexivity|]. split; [reflexivity|].
    split; auto.
    constructor; simpl; auto; try discriminate.
    unfold well_formed in *; cbn [index columns]. now rewrite <- Hidx.
  - rewrite <- Hidx, Hu.
    do 2 eexists. split; [reflexivity|]. split; [reflexivity|].
    split; auto.
    constructor; simpl; auto; try discriminate.
    unfold well_formed; simpl. apply Forall_map, Forall_forall.
    intros c _; simpl. f_equal. apply take_length.
Qed.

Lemma set_freq_given_frequency_regular_witness :
  exists r l',
    set_freq (fun _ => Raise ValueError) sample_table_unset (Some (Tick 5))
    = Ok r /\
    index r = 10 :: l' /\
    regular r (Tick 5) /\
    last l' 10 <= last [20; 30] 10.
Proof.
  apply set_freq_given_frequency_regular.
  - reflexivity.
  - apply Tick_lawful.
  - reflexivity.
  - reflexivity.
  - simpl; lia.
  - reflexivity.
  - repeat constructor.
Defined.

Example set_freq_finer_frequency :
  set_freq (fun _ => Raise ValueError) sample_table_unset (Some (Tick 5))
  = Ok {| index := [10; 15; 20; 25; 30];
          freq := Some (Tick 5);
          columns := [("a"%string, [Fin 1; NaN; Fin 2; NaN; Fin 3]);
                      ("b"%string, [Fin 4; NaN; Fin 5; NaN; Fin 6])] |}.
Proof. reflexivity. Qed.

(** ** [ciclean] *)

(** X24.  [ciclean] returns a table exactly for a table of two columns:
    the result has the index and the values of the table, under the names
    [lower] and [upper], and [ciclean] leaves it as it is; for any other
    number of columns [ciclean] raises [ValueError]. *)
Theorem ciclean_two_columns (df : DataFrame) :
  (List.length (columns df) = 2%nat ->
   exists r,
     ciclean df = Ok r /\
     index r = index df /\
     column_names r = ["lower"%string; "upper"%string] /\
     map snd (columns r) = map snd (columns df) /\
     ciclean r = Ok r)
  /\
  (List.length (columns df) <> 2%nat -> ciclean df = Raise ValueError).
Proof.
  unfold ciclean. split.
  - intros H.
    destruct (columns df) as [|[n1 c1] [|[n2 c2] [|c3 cs]]];
      try discriminate.
    eexists. split; [reflexivity|]. simpl. repeat split.
  - intros H.
    destruct (columns df) as [|[n1 c1] [|[n2 c2] [|c3 cs]]];
      simpl in H; auto; lia.
Qed.

Lemma ciclean_two_columns_witness :
  (exists r,
     ciclean sample_table = Ok r /\
     index r = index sample_table /\
     column_names r = ["lower"%string; "upper"%string] /\
     map snd (columns r) = map snd (columns sample_table) /\
     ciclean r = Ok r)
  /\
  ciclean {| index := [10]; freq := None;
             columns := [("a"%string, [Fin 1])] |}
  = Raise ValueError.
Proof.
  split.
  - apply (proj1 (ciclean_two_columns sample_table)). reflexivity.
  - apply (proj2 (ciclean_two_columns _)). simpl; lia.
Defined.
